(** * DWServiceBPO: the scale reader of [main.py]

    A shallow embedding of the serial-frame acquisition code of
    [main.py]: the frame transformation [transformar_trama], the
    [BalanzaApp] object with its polling loop [oTimer_Tick] and its
    start/stop switch [toggle_connection], and the status endpoint
    [home].

    Python values are modelled as follows.
    - A [str] is the list of its code points (integers); [ord] and [chr]
      are Python's, [chr] raising [ValueError] outside [0, 0x10FFFF].
    - A [bytes] object is a [list byte].
    - The [BalanzaApp] instance is a record that is passed explicitly;
      the serial port is reduced to its [is_open] flag, and what the
      device does during one pass of the loop is an explicit argument
      ([port_io]).
    - Exceptions are an outcome of a small state-and-exception monad. *)

From Stdlib Require Import ZArith Lia.
From Stdlib.Strings Require Import Byte String.
From stdpp Require Import base tactics option list.

Local Open Scope Z_scope.

(** ** Python strings and the built-ins the program calls *)

Module Py.

(** A character is its code point. *)
Abbreviation char := Z.
Abbreviation str := (list char).

Definition ord (c : char) : Z := c.

(** [chr(i)]: [None] stands for the [ValueError] Python raises when
    [i] is not in [range(0x110000)]. *)
Definition chr (i : Z) : option char :=
  if (0 <=? i) && (i <? 0x110000) then Some i else None.

Definition len (s : str) : Z := Z.of_nat (length s).

(** Code points a Python string can hold. *)
Definition valid_char (c : char) : Prop := 0 <= c < 0x110000.
(** Code points of text decoded from bytes. *)
Definition byte_char (c : char) : Prop := 0 <= c < 256.

(** [bytes.decode('latin-1', errors='ignore')]: every byte is the
    character of the same code point; no byte is undecodable. *)
Definition decode_latin1 (data : list byte) : str :=
  fmap (fun b => Z.of_N (Byte.to_N b)) data.

(** [s.find(c)] for a one-character needle: the lowest index of [c],
    or [-1]. [find_from] carries the index of the head of the rest. *)
Fixpoint find_from (s : str) (c : char) (i : Z) : Z :=
  match s with
  | [] => -1
  | x :: rest => if x =? c then i else find_from rest c (i + 1)
  end.

Definition find (s : str) (c : char) : Z := find_from s c 0.

(** Slice bounds as CPython adjusts them for a step of 1: a negative
    bound counts from the end, and both are clamped to [0, len]. *)
Definition adjust_index (n i : Z) : Z :=
  if i <? 0 then Z.max 0 (i + n) else Z.min i n.

(** [s[lo:hi]]; never raises. *)
Definition slice (s : str) (lo hi : Z) : str :=
  let n := len s in
  let lo' := adjust_index n lo in
  let hi' := adjust_index n hi in
  take (Z.to_nat (hi' - lo')) (drop (Z.to_nat lo') s).

(** A string literal of ASCII text. *)
Definition lit (s : String.string) : str :=
  fmap (fun b => Z.of_N (Byte.to_N b)) (String.list_byte_of_string s).

End Py.

Import Py.

(** ** 1) [transformar_trama] *)

(** The body of the [for] loop with its accumulator [nueva]:
    [nueva += chr(ord(c) - 0x80)] or [nueva += c]. *)
Fixpoint transformar_loop (nueva : str) (trama : str) : option str :=
  match trama with
  | [] => Some nueva
  | c :: rest =>
      if 0x80 <=? ord c
      then c' ← chr (ord c - 0x80); transformar_loop (nueva ++ [c']) rest
      else transformar_loop (nueva ++ [c]) rest
  end.

Definition transformar_trama (trama : str) : option str :=
  transformar_loop [] trama.

(** What the docstring says of one character. *)
Definition resta_0x80 (c : char) : char :=
  if 0x80 <=? c then c - 0x80 else c.


(** ** 2) The [BalanzaApp] object *)

(** The attributes the code reads and writes. [oComm_is_open] is
    [self.oComm.is_open]; the port settings (COM4, 9600 8N1, timeout 0)
    and [timer_interval] play no part in what follows. *)
Record BalanzaApp : Type := mkBalanzaApp {
  cPeso : str;
  oComm_is_open : bool;
  txtPeso : str;
  txtTrama : str;
  timer_active : bool
}.

(** One attribute store. Stores are the atomic steps of the object's
    history: another thread can run between two of them. *)
Inductive store_ev : Type :=
| St_cPeso (v : str)
| St_is_open (b : bool)
| St_txtPeso (v : str)
| St_txtTrama (v : str)
| St_timer_active (b : bool).

Definition apply_store (w : store_ev) (self : BalanzaApp) : BalanzaApp :=
  match w with
  | St_cPeso v =>
      mkBalanzaApp v (oComm_is_open self) (txtPeso self) (txtTrama self) (timer_active self)
  | St_is_open b =>
      mkBalanzaApp (cPeso self) b (txtPeso self) (txtTrama self) (timer_active self)
  | St_txtPeso v =>
      mkBalanzaApp (cPeso self) (oComm_is_open self) v (txtTrama self) (timer_active self)
  | St_txtTrama v =>
      mkBalanzaApp (cPeso self) (oComm_is_open self) (txtPeso self) v (timer_active self)
  | St_timer_active b =>
      mkBalanzaApp (cPeso self) (oComm_is_open self) (txtPeso self) (txtTrama self) b
  end.

Definition apply_stores (t : list store_ev) (self : BalanzaApp) : BalanzaApp :=
  foldl (fun s w => apply_store w s) self t.

(** [BalanzaApp.__init__] *)
Definition init : BalanzaApp :=
  {| cPeso := [];
     oComm_is_open := false;
     txtPeso := lit "----";
     txtTrama := [];
     timer_active := false |}.

(** ** Methods as computations on the object

    A method takes the object and gives back how it ended (a value, or
    an exception raised), the object as it then is, and the attribute
    stores it made, in program order. *)

Inductive result (A : Type) : Type :=
| Ok (a : A)
| Raised.
Arguments Ok {A} a.
Arguments Raised {A}.

Definition M (A : Type) : Type :=
  BalanzaApp → result A * BalanzaApp * list store_ev.

Definition ret {A} (a : A) : M A := λ self, (Ok a, self, []).

Definition raise {A} : M A := λ self, (Raised, self, []).

Definition bind {A B} (m : M A) (k : A → M B) : M B := λ self,
  match m self with
  | (Ok a, self1, t1) =>
      match k a self1 with
      | (r, self2, t2) => (r, self2, t1 ++ t2)
      end
  | (Raised, self1, t1) => (Raised, self1, t1)
  end.

#[export] Instance M_ret : MRet M := @ret.
#[export] Instance M_bind : MBind M := λ A B k m, bind m k.

(** Read the object's attributes. *)
Definition get : M BalanzaApp := λ self, (Ok self, self, []).

(** [self.attr = v] *)
Definition store (w : store_ev) : M unit := λ self,
  (Ok tt, apply_store w self, [w]).

(** [try: body except: handler]. What [body] stored before it raised
    stays stored. *)
Definition try_except {A} (body handler : M A) : M A := λ self,
  match body self with
  | (Ok a, self1, t1) => (Ok a, self1, t1)
  | (Raised, self1, t1) =>
      match handler self1 with
      | (r, self2, t2) => (r, self2, t1 ++ t2)
      end
  end.

Definition outcome {A} (x : result A * BalanzaApp * list store_ev) : result A := x.1.1.
Definition final {A} (x : result A * BalanzaApp * list store_ev) : BalanzaApp := x.1.2.
Definition stores {A} (x : result A * BalanzaApp * list store_ev) : list store_ev := x.2.

(** ** The serial port

    What the device and the driver do while one method runs: the bytes
    waiting in the driver's input buffer, and which of the calls on the
    port fail with an exception. *)
Record port_io : Type := mkPortIo {
  rx : list byte;
  in_waiting_raises : bool;
  read_raises : bool;
  open_raises : bool;
  close_raises : bool
}.

(** [self.oComm.in_waiting] *)
Definition comm_in_waiting (io : port_io) : M Z :=
  if in_waiting_raises io then raise else ret (Z.of_nat (length (rx io))).

(** [self.oComm.read(size)]: with [timeout = 0] it returns at once with
    at most [size] of the waiting bytes. *)
Definition comm_read (io : port_io) (size : Z) : M (list byte) :=
  if read_raises io then raise else ret (take (Z.to_nat size) (rx io)).

(** [self.oComm.open()]: pyserial refuses to open an open port. *)
Definition comm_open (io : port_io) : M unit :=
  self ← get;
  if oComm_is_open self then raise
  else if open_raises io then raise
  else store (St_is_open true).

(** [self.oComm.close()]: when the driver fails the port stays open. *)
Definition comm_close (io : port_io) : M unit :=
  if close_raises io then raise else store (St_is_open false).

(** ** 3) [oTimer_Tick] *)

(** Lines 137-143: read what is waiting and append it to [cPeso]. *)
Definition read_available (io : port_io) : M unit :=
  in_waiting ← comm_in_waiting io;
  if 0 <? in_waiting then
    data ← comm_read io in_waiting;
    let chunk := decode_latin1 data in
    self ← get;
    store (St_cPeso (cPeso self ++ chunk))
  else ret tt.

(** Lines 155-165: find STX in the corrected frame and publish the six
    characters that start four places after it, or the sentinel. *)
Definition decode_frame (trama_corregida : str) : M unit :=
  let pos := find trama_corregida 0x02 in
  if negb (pos =? -1) then
    let start_idx := pos + 4 in
    let weight := slice trama_corregida start_idx (start_idx + 6) in
    store (St_txtPeso weight)
  else
    store (St_txtPeso (lit "----")).

(** Lines 146-172. An exception of [transformar_trama] would surface
    here, inside the [try]. *)
Definition process_frame : M unit :=
  self ← get;
  if 30 <=? len (cPeso self) then
    match transformar_trama (cPeso self) with
    | None => raise
    | Some trama_corregida =>
        store (St_txtTrama trama_corregida);;
        decode_frame trama_corregida;;
        store (St_cPeso [])
    end
  else
    if len (cPeso self) =? 0 then store (St_txtPeso (lit "----"))
    else ret tt.

(** The body of the [try], lines 136-172. *)
Definition tick_try (io : port_io) : M unit :=
  self ← get;
  if oComm_is_open self then
    read_available io;;
    process_frame
  else ret tt.

(** The [except] clause, lines 173-181; its inner [try ... except: pass]
    swallows a failure of [close]. *)
Definition tick_except (io : port_io) : M unit :=
  store (St_timer_active false);;
  try_except
    (self ← get;
     if oComm_is_open self then comm_close io else ret tt)
    (ret tt).

(** One pass of the [while] loop (the sleep that ends it is not
    modelled). *)
Definition tick (io : port_io) : M unit :=
  try_except (tick_try io) (tick_except io).

(** How an observed run of the loop ends: the [while] condition was
    found false, or the thread is still going round when the
    observation stops. *)
Inductive loop_status : Type := Exited | Running.

(** The loop, run against what the port does on each successive pass. *)
Fixpoint oTimer_Tick (ios : list port_io) : M loop_status :=
  match ios with
  | [] =>
      self ← get;
      ret (if timer_active self then Running else Exited)
  | io :: rest =>
      self ← get;
      if timer_active self then
        tick io;;
        oTimer_Tick rest
      else ret Exited
  end.

(** ** 4) [toggle_connection] and the endpoints *)

(** Both [try] blocks re-raise what they catch, so an exception simply
    propagates. Starting the thread and joining it are not stores on the
    object: the passes of the loop are the [tick]s that a history
    interleaves with the calls (see [step]); after the flag is cleared
    the loop makes no further pass. *)
Definition toggle_connection (io : port_io) : M unit :=
  self ← get;
  if negb (timer_active self) then
    comm_open io;;
    store (St_timer_active true)
  else
    store (St_timer_active false);;
    self ← get;
    (if oComm_is_open self then comm_close io else ret tt);;
    store (St_txtPeso (lit "0"));;
    store (St_cPeso []).

(** [GET /weight/]: the three attributes (the time stamp is left out). *)
Definition home (balanza : BalanzaApp) : str * str * bool :=
  (txtPeso balanza, txtTrama balanza, timer_active balanza).

Inductive message : Type :=
| Lectura_iniciada
| Ya_activa
| Lectura_detenida
| Ya_detenida.

(** [POST /iniciar] *)
Definition iniciar_lectura (io : port_io) : M message :=
  balanza ← get;
  if negb (timer_active balanza) then
    toggle_connection io;;
    ret Lectura_iniciada
  else ret Ya_activa.

(** [POST /detener] *)
Definition detener_lectura (io : port_io) : M message :=
  balanza ← get;
  if timer_active balanza then
    toggle_connection io;;
    ret Lectura_detenida
  else ret Ya_detenida.

(** ** Histories of the object *)

(** One step of the object's life: a pass of the running loop, or a
    call of one of the two switching endpoints. *)
Inductive step : BalanzaApp → BalanzaApp → Prop :=
| step_tick io self :
    timer_active self = true → step self (final (tick io self))
| step_iniciar io self :
    step self (final (iniciar_lectura io self))
| step_detener io self :
    step self (final (detener_lectura io self)).

Inductive reachable : BalanzaApp → Prop :=
| reach_init : reachable init
| reach_step self self' : reachable self → step self self' → reachable self'.

(** ** A status read that runs while the loop stores

    [home] reads [txtPeso], then [txtTrama], then [timer_active]. When
    the loop thread makes the stores [t] meanwhile, the three reads see
    the object after [i], [j] and [k] of them, with [i ≤ j ≤ k]. *)
Definition after_stores (n : nat) (t : list store_ev) (self : BalanzaApp) : BalanzaApp :=
  apply_stores (take n t) self.

Definition home_during (t : list store_ev) (self : BalanzaApp) (i j k : nat)
  : str * str * bool :=
  (txtPeso (after_stores i t self),
   txtTrama (after_stores j t self),
   timer_active (after_stores k t self)).

(** The object at the boundary after [n] passes of the loop. *)
Definition after_ticks (n : nat) (ios : list port_io) (self : BalanzaApp) : BalanzaApp :=
  final (oTimer_Tick (take n ios) self).

(** ** Notions used to state the properties *)

(** The first occurrence of [c] in [s] is at index [p]. *)
Definition first_at (s : str) (c : char) (p : nat) : Prop :=
  s !! p = Some c ∧ ∀ i, (i < p)%nat → s !! i ≠ Some c.

(** [m] ends normally and its one effect is to publish the weight [w]. *)
Definition publishes (m : M unit) (self : BalanzaApp) (w : str) : Prop :=
  m self = (Ok tt, apply_store (St_txtPeso w) self, [St_txtPeso w]).

(** The sentinel weight. *)
Definition sentinel : str := lit "----".

(** What every object of a history satisfies: the loop runs only on an
    open port, and between passes the buffer is short of a frame and
    holds characters decoded from bytes. *)
Definition inv (self : BalanzaApp) : Prop :=
  (timer_active self = true → oComm_is_open self = true) ∧
  len (cPeso self) < 30 ∧
  Forall byte_char (cPeso self).

(** [m] changes the object through its stores only: replaying them on
    the object it started from gives the object it ends with. *)
Definition sound {A} (m : M A) : Prop :=
  ∀ self, final (m self) = apply_stores (stores (m self)) self.

(** One of two objects, by a flag. *)
Definition pick (later : bool) (before after : BalanzaApp) : BalanzaApp :=
  if later then after else before.

(** The stores one pass of the loop can make, after those ([pre]) of
    its read step. *)
Definition tick_trace (pre t : list store_ev) : Prop :=
  t = pre
  ∨ (∃ w, t = pre ++ [St_txtPeso w])
  ∨ (∃ T w, t = pre ++ [St_txtTrama T; St_txtPeso w; St_cPeso []])
  ∨ t = pre ++ [St_timer_active false]
  ∨ t = pre ++ [St_timer_active false; St_is_open false].

Definition read_trace (pre : list store_ev) : Prop :=
  pre = [] ∨ ∃ v, pre = [St_cPeso v].

(** ** Sample values *)

(** A corrected frame with STX at index 1 and the weight "123456". *)
Definition canonical_example : str :=
  [0x0D; 0x02; 0x41; 0x42; 0x43] ++ lit "123456" ++ [0x0D; 0x0A].

(** A port on which [data] is waiting and no call fails. *)
Definition io_rx (data : list byte) : port_io :=
  mkPortIo data false false false false.

(** A port whose [in_waiting] fails, and whose [close] fails or not. *)
Definition io_broken (close_fails : bool) : port_io :=
  mkPortIo [] true false false close_fails.

(** The twelve bytes of the end-to-end example, and the example padded
    with zero bytes to thirty. *)
Definition raw_head : list byte :=
  [x82; x8d; x02; x00; x00; x00; x31; x32; x33; x34; x35; x36].

Definition raw_example : list byte := raw_head ++ replicate 18 x00.

(** The object after [POST /iniciar], and after one more pass that
    received [raw_example]. *)
Definition started : BalanzaApp := final (iniciar_lectura (io_rx []) init).

Definition weighed : BalanzaApp := final (tick (io_rx raw_example) started).

(** ** Further notions *)

(** A character of a corrected frame: the high bit is clear. *)
Definition canonical_char (c : char) : Prop := 0 <= c < 0x80.

(** What every object of a history publishes: a frame that is empty or
    a whole corrected buffer, and a weight of at most six characters,
    all with the high bit clear. *)
Definition inv_pub (self : BalanzaApp) : Prop :=
  Forall canonical_char (txtTrama self) ∧
  (txtTrama self = [] ∨ 30 <= len (txtTrama self)) ∧
  Forall canonical_char (txtPeso self) ∧
  (length (txtPeso self) ≤ 6)%nat.

(** A raw character that the transformation turns into STX. *)
Definition stx_raw (c : char) : Prop := c = 0x02 ∨ c = 0x82.

(** The first raw character that becomes STX is at index [p]. *)
Definition first_stx_raw (raw : str) (p : nat) : Prop :=
  (∃ c, raw !! p = Some c ∧ stx_raw c) ∧
  ∀ i c, (i < p)%nat → raw !! i = Some c → ¬ stx_raw c.

(** A port on which nothing waits and [close] fails. *)
Definition io_close_fails : port_io := mkPortIo [] false false false true.

(** A port that cannot be opened. *)
Definition io_open_fails : port_io := mkPortIo [] false false true false.

(** Thirty bytes without any STX, raw or with the high bit set. *)
Definition raw_no_stx : list byte := replicate 30 x41.

(** A frame as the device sends it: STX with the high bit set, three
    header bytes, the weight " 12.50", and padding. *)
Definition raw_device : list byte :=
  [x82; xb0; x30; x20; x20; x31; x32; x2e; x35; x30; x8d] ++ replicate 8 x20.

Definition raw_device_rest : list byte := replicate 12 x20.

(** What the port delivers when reading starts in mid-stream: the end
    of the previous frame, then [raw_device] and more padding. *)
Definition raw_stream : list byte := [x0d] ++ raw_device ++ raw_device_rest.

(* ================================================================= *)
(** * Properties *)

(** ** Strings *)

Lemma chr_valid i : 0 <= i < 0x110000 → chr i = Some i.
Proof.
  intros [Hlo Hhi]. unfold chr.
  apply Z.leb_le in Hlo. apply Z.ltb_lt in Hhi. by rewrite Hlo, Hhi.
Qed.

Lemma byte_char_valid c : byte_char c → valid_char c.
Proof. unfold byte_char, valid_char. lia. Qed.

Lemma byte_str_valid (s : str) : Forall byte_char s → Forall valid_char s.
Proof. intros H. eapply Forall_impl; [exact H | apply byte_char_valid]. Qed.

Lemma decode_latin1_bytes data : Forall byte_char (decode_latin1 data).
Proof.
  unfold decode_latin1. apply Forall_forall. intros c Hc.
  apply list_elem_of_fmap in Hc as (b & -> & _).
  pose proof (Byte.to_N_bounded b). unfold byte_char. lia.
Qed.

Lemma decode_latin1_length data : length (decode_latin1 data) = length data.
Proof. apply length_fmap. Qed.

Lemma decode_latin1_app d1 d2 :
  decode_latin1 (d1 ++ d2) = decode_latin1 d1 ++ decode_latin1 d2.
Proof. apply fmap_app. Qed.

(** ** [transformar_trama] is the character-wise map of the docstring *)

Lemma transformar_loop_valid nueva trama :
  Forall valid_char trama →
  transformar_loop nueva trama = Some (nueva ++ fmap resta_0x80 trama).
Proof.
  intros Hv. revert nueva.
  induction Hv as [|c rest Hc _ IH]; intros nueva; simpl.
  - by rewrite app_nil_r.
  - unfold resta_0x80 at 1, ord. unfold valid_char in Hc.
    destruct (Z.leb_spec 0x80 c).
    + rewrite chr_valid by lia. simpl. rewrite IH. by rewrite <- app_assoc.
    + rewrite IH. by rewrite <- app_assoc.
Qed.

Lemma transformar_trama_valid trama :
  Forall valid_char trama →
  transformar_trama trama = Some (fmap resta_0x80 trama).
Proof. intros Hv. unfold transformar_trama. by rewrite transformar_loop_valid. Qed.

Lemma resta_0x80_low c : byte_char c → 0 <= resta_0x80 c < 0x80.
Proof. unfold byte_char, resta_0x80. destruct (Z.leb_spec 0x80 c); lia. Qed.

Lemma resta_0x80_fixed c : c < 0x80 → resta_0x80 c = c.
Proof. unfold resta_0x80. destruct (Z.leb_spec 0x80 c); lia. Qed.

Lemma map_resta_low (s : str) :
  Forall byte_char s → Forall (λ c, 0 <= c < 0x80) (fmap resta_0x80 s).
Proof.
  intros H. apply Forall_fmap. eapply Forall_impl; [exact H|].
  intros c Hc. by apply resta_0x80_low.
Qed.

Lemma map_resta_fixed (s : str) :
  Forall (λ c, 0 <= c < 0x80) s → fmap resta_0x80 s = s.
Proof.
  induction 1 as [|c s Hc _ IH]; [done|].
  rewrite fmap_cons, IH, resta_0x80_fixed; [done | lia].
Qed.

(** C5. For every string of characters 0..255, [transformar_trama]
    returns (it raises nothing) a string of the same length whose i-th
    character is [b - 0x80] where the i-th input character [b] is at
    least 0x80, and [b] itself otherwise. *)
Theorem transformar_trama_bytes (trama : str) :
  Forall byte_char trama →
  ∃ nueva,
    transformar_trama trama = Some nueva ∧
    length nueva = length trama ∧
    ∀ (i : nat) (b : char), trama !! i = Some b →
      nueva !! i = Some (if 0x80 <=? b then b - 0x80 else b).
Proof.
  intros Hb. exists (fmap resta_0x80 trama). split; [|split].
  - apply transformar_trama_valid. by apply byte_str_valid.
  - apply length_fmap.
  - intros i b Hi. rewrite list_lookup_fmap, Hi. done.
Qed.

Lemma transformar_trama_bytes_witness :
  ∃ nueva,
    transformar_trama [0x82; 0x8D; 0x31; 0x7F; 0xFF; 0x00] = Some nueva ∧
    length nueva = 6%nat ∧
    ∀ (i : nat) (b : char), [0x82; 0x8D; 0x31; 0x7F; 0xFF; 0x00] !! i = Some b →
      nueva !! i = Some (if 0x80 <=? b then b - 0x80 else b).
Proof.
  apply (transformar_trama_bytes [0x82; 0x8D; 0x31; 0x7F; 0xFF; 0x00]).
  repeat constructor; unfold byte_char; lia.
Defined.

(** C10. On a string of characters 0..255 every character of the output
    of [transformar_trama] is below 0x80, and transforming the output
    again leaves it as it is: [transformar_trama] composed with itself
    equals [transformar_trama]. *)
Theorem transformar_trama_idempotent (s : str) :
  Forall byte_char s →
  ∃ t,
    transformar_trama s = Some t ∧
    Forall (λ c, 0 <= ord c < 0x80) t ∧
    transformar_trama t = Some t ∧
    transformar_trama s ≫= transformar_trama = transformar_trama s.
Proof.
  intros Hb. exists (fmap resta_0x80 s).
  assert (Hlow : Forall (λ c, 0 <= c < 0x80) (fmap resta_0x80 s))
    by by apply map_resta_low.
  assert (Ht : transformar_trama (fmap resta_0x80 s) = Some (fmap resta_0x80 s)).
  { rewrite transformar_trama_valid.
    - by rewrite map_resta_fixed.
    - eapply Forall_impl; [exact Hlow|]. unfold valid_char. simpl. lia. }
  rewrite transformar_trama_valid by by apply byte_str_valid.
  repeat split; try done.
Qed.

Lemma transformar_trama_idempotent_witness :
  ∃ t,
    transformar_trama [0x82; 0x8D; 0x02; 0xFF; 0x80; 0x7F] = Some t ∧
    Forall (λ c, 0 <= ord c < 0x80) t ∧
    transformar_trama t = Some t ∧
    transformar_trama [0x82; 0x8D; 0x02; 0xFF; 0x80; 0x7F] ≫= transformar_trama
      = transformar_trama [0x82; 0x8D; 0x02; 0xFF; 0x80; 0x7F].
Proof.
  apply (transformar_trama_idempotent [0x82; 0x8D; 0x02; 0xFF; 0x80; 0x7F]).
  repeat constructor; unfold byte_char; lia.
Defined.

(** ** [find] and slicing *)

Lemma find_from_absent (s : str) c i : c ∉ s → find_from s c i = -1.
Proof.
  revert i. induction s as [|x s IH]; intros i Hc; simpl; [done|].
  apply not_elem_of_cons in Hc as [Hx Hs].
  destruct (Z.eqb_spec x c); [congruence|]. by apply IH.
Qed.

Lemma find_from_first_at (s : str) c p i :
  first_at s c p → find_from s c i = i + Z.of_nat p.
Proof.
  revert p i. induction s as [|x s IH]; intros p i [Hp Hlt]; [done|].
  simpl. destruct p as [|p].
  - simpl in Hp. injection Hp as ->. rewrite Z.eqb_refl. lia.
  - destruct (Z.eqb_spec x c) as [->|Hne].
    + exfalso. apply (Hlt 0%nat); [lia | done].
    + rewrite (IH p (i + 1)); [lia|].
      split; [done|]. intros j Hj. apply (Hlt (S j)). lia.
Qed.

Lemma first_at_exists (s : str) c : c ∈ s → ∃ p, first_at s c p.
Proof.
  induction s as [|x s IH]; intros Hc.
  - by apply elem_of_nil in Hc.
  - destruct (decide (x = c)) as [->|Hne].
    + exists 0%nat. split; [done | intros; lia].
    + apply elem_of_cons in Hc as [?|Hc]; [congruence|].
      destruct (IH Hc) as [p [Hp Hlt]]. exists (S p). split; [done|].
      intros [|i] Hi; simpl; [congruence|]. apply Hlt. lia.
Qed.

Lemma first_at_lt (s : str) c p : first_at s c p → (p < length s)%nat.
Proof. intros [Hp _]. by apply lookup_lt_Some in Hp. Qed.

Lemma first_at_app (pre post : str) c :
  c ∉ pre → first_at (pre ++ c :: post) c (length pre).
Proof.
  intros Hc. split.
  - by rewrite list_lookup_middle.
  - intros i Hi Hl. rewrite lookup_app_l in Hl by done.
    apply Hc. by eapply list_elem_of_lookup_2.
Qed.

(** With bounds that are not negative and in order, a slice is the
    [take] of a [drop]: the clamping of CPython is the one the two list
    functions already do. *)
Lemma slice_nonneg (s : str) lo hi :
  0 <= lo <= hi →
  slice s lo hi = take (Z.to_nat (hi - lo)) (drop (Z.to_nat lo) s).
Proof.
  intros [Hlo Hhi]. unfold slice, adjust_index, len.
  destruct (Z.ltb_spec lo 0); [lia|]. destruct (Z.ltb_spec hi 0); [lia|].
  destruct (Z.le_gt_cases lo (Z.of_nat (length s))) as [Hin|Hout].
  - rewrite (Z.min_l lo) by done.
    destruct (Z.le_gt_cases hi (Z.of_nat (length s))).
    + by rewrite (Z.min_l hi).
    + rewrite (Z.min_r hi) by lia.
      rewrite !take_ge; [done | rewrite length_drop; lia..].
  - rewrite !Z.min_r by lia. rewrite Z.sub_diag. simpl.
    rewrite (drop_ge s (Z.to_nat lo)) by lia. by rewrite take_nil.
Qed.

(** ** The decoding step *)

Lemma decode_frame_absent (s : str) self :
  0x02 ∉ s → publishes (decode_frame s) self sentinel.
Proof.
  intros Hc. unfold publishes, decode_frame, find.
  by rewrite find_from_absent.
Qed.

Lemma decode_frame_at (s : str) p self :
  first_at s 0x02 p →
  publishes (decode_frame s) self (take 6 (drop (p + 4) s)).
Proof.
  intros Hp. unfold publishes, decode_frame, find.
  rewrite (find_from_first_at s _ p) by done.
  destruct (Z.eqb_spec (0 + Z.of_nat p) (-1)); [lia|]. simpl.
  rewrite slice_nonneg by lia.
  replace (Z.to_nat (0 + Z.of_nat p + 4 + 6 - (0 + Z.of_nat p + 4))) with 6%nat by lia.
  replace (Z.to_nat (0 + Z.of_nat p + 4)) with (p + 4)%nat by lia.
  done.
Qed.

Lemma decode_frame_publishes (s : str) self :
  ∃ w, publishes (decode_frame s) self w.
Proof.
  destruct (decide (0x02 ∈ s)) as [Hin|Hout].
  - destruct (first_at_exists s _ Hin) as [p Hp].
    eexists. by apply decode_frame_at.
  - eexists. by apply decode_frame_absent.
Qed.

(** C3. The decoding step never raises: whatever the string, it ends
    normally having published one weight. When 0x02 is absent that is
    the sentinel; when the first 0x02 is at [p] and [p + 4 + 6] is past
    the end, it is what the string has from [p + 4] on (nothing, when
    [p + 4] is past the end too). *)
Theorem decode_frame_total (s : str) (self : BalanzaApp) :
  (∃ w, publishes (decode_frame s) self w) ∧
  (0x02 ∉ s → publishes (decode_frame s) self sentinel) ∧
  (∀ p : nat, first_at s 0x02 p → (length s < p + 4 + 6)%nat →
     publishes (decode_frame s) self (drop (p + 4) s)).
Proof.
  split; [|split].
  - apply decode_frame_publishes.
  - apply decode_frame_absent.
  - intros p Hp Hshort.
    rewrite <- (take_ge (drop (p + 4) s) 6) by (rewrite length_drop; lia).
    by apply decode_frame_at.
Qed.

Lemma decode_frame_total_witness :
  publishes (decode_frame [0x41; 0x02; 0x0D; 0x20; 0x20; 0x31; 0x32]) init [0x31; 0x32]
  ∧ publishes (decode_frame [0x41; 0x42; 0x43; 0x02; 0x0D]) init [].
Proof.
  split.
  - apply (decode_frame_total [0x41; 0x02; 0x0D; 0x20; 0x20; 0x31; 0x32] init) with (p := 1%nat).
    + split; [reflexivity|]. intros [|i] Hi; [discriminate | lia].
    + simpl. lia.
  - apply (decode_frame_total [0x41; 0x42; 0x43; 0x02; 0x0D] init) with (p := 3%nat).
    + split; [reflexivity|]. intros [|[|[|i]]] Hi; try discriminate. lia.
    + simpl. lia.
Defined.

(** C4. When the first 0x02 of the corrected frame is at index [p] and
    the frame has at least [p + 10] characters, the weight published is
    exactly the six characters at indices [p + 4] to [p + 9]; so a frame
    [... 0x02 a b c 1 2 3 4 5 6 ...] whose first 0x02 is at [p] gives
    "123456". *)
Theorem decode_frame_weight (s : str) (p : nat) (self : BalanzaApp) :
  first_at s 0x02 p → (p + 10 ≤ length s)%nat →
  (∃ w, publishes (decode_frame s) self w ∧
        length w = 6%nat ∧
        ∀ i : nat, (i < 6)%nat → w !! i = s !! (p + 4 + i)%nat) ∧
  (∀ (pre post : str) (a b c : char),
     s = pre ++ [0x02; a; b; c] ++ lit "123456" ++ post → length pre = p →
     publishes (decode_frame s) self (lit "123456")).
Proof.
  intros Hp Hlen. pose proof (decode_frame_at s p self Hp) as Hd. split.
  - eexists. split; [exact Hd|]. split.
    + rewrite length_take, length_drop. lia.
    + intros i Hi. rewrite lookup_take_lt by done. by rewrite lookup_drop.
  - intros pre post a b c Hs <-.
    replace (take 6 (drop (length pre + 4) s)) with (lit "123456") in Hd; [done|].
    rewrite Hs.
    change (pre ++ [2; a; b; c] ++ lit "123456" ++ post)
      with (pre ++ [2; a; b; c] ++ (lit "123456" ++ post)).
    rewrite (app_assoc pre), drop_app_length'; [done|].
    rewrite length_app. simpl. lia.
Qed.

Lemma decode_frame_weight_witness :
  (∃ w, publishes (decode_frame canonical_example) init w ∧
        length w = 6%nat ∧
        ∀ i : nat, (i < 6)%nat → w !! i = canonical_example !! (1 + 4 + i)%nat) ∧
  publishes (decode_frame canonical_example) init (lit "123456").
Proof.
  assert (Hp : first_at canonical_example 0x02 1).
  { split; [reflexivity|]. intros [|i] Hi; [discriminate | lia]. }
  assert (Hl : (1 + 10 ≤ length canonical_example)%nat).
  { vm_compute. lia. }
  destruct (decode_frame_weight _ 1%nat init Hp Hl) as [Hw Hshape].
  split; [exact Hw|].
  apply (Hshape [0x0D] [0x0D; 0x0A] 0x41 0x42 0x43); reflexivity.
Defined.

(** ** One pass of the loop, case by case *)

Ltac unfold_M :=
  unfold tick, tick_try, tick_except, process_frame, read_available,
    comm_in_waiting, comm_read, comm_close, comm_open,
    try_except, mbind, M_bind, bind, mret, M_ret, ret, get, store, raise in *.

(** The read step either raises, having stored nothing, or ends
    normally with [cPeso] extended by the bytes that were waiting. *)
Lemma read_available_cases io self :
  read_available io self = (Raised, self, [])
  ∨ (rx io = [] ∧ read_available io self = (Ok tt, self, []))
  ∨ (rx io ≠ [] ∧
     read_available io self =
       (Ok tt, apply_store (St_cPeso (cPeso self ++ decode_latin1 (rx io))) self,
        [St_cPeso (cPeso self ++ decode_latin1 (rx io))])).
Proof.
  unfold_M. destruct (in_waiting_raises io); [by left|].
  destruct (rx io) as [|b d] eqn:Hrx; [right; left; done|].
  destruct (Z.ltb_spec 0 (Z.of_nat (length (b :: d)))); [|simpl in *; lia].
  destruct (read_raises io); [by left|].
  right; right. split; [done|].
  rewrite Nat2Z.id, take_ge by done. done.
Qed.

Lemma read_available_ok io self self1 t1 :
  read_available io self = (Ok tt, self1, t1) →
  self1 = mkBalanzaApp (cPeso self ++ decode_latin1 (rx io))
            (oComm_is_open self) (txtPeso self) (txtTrama self) (timer_active self)
  ∧ apply_stores t1 self = self1.
Proof.
  intros H. destruct (read_available_cases io self) as [E|[[Hrx E]|[Hrx E]]];
    rewrite E in H; [discriminate|..].
  - injection H as <- <-. rewrite Hrx. simpl. rewrite app_nil_r.
    by destruct self.
  - injection H as <- <-. done.
Qed.

Lemma read_available_raised io self self1 t1 :
  read_available io self = (Raised, self1, t1) → self1 = self ∧ t1 = [].
Proof.
  intros H. destruct (read_available_cases io self) as [E|[[Hrx E]|[Hrx E]]];
    rewrite E in H; [|discriminate..].
  by injection H as <- <-.
Qed.

(** The processing step on a buffer that reached the threshold. *)
Lemma process_frame_full self T :
  30 <= len (cPeso self) → transformar_trama (cPeso self) = Some T →
  ∃ w, publishes (decode_frame T) (apply_store (St_txtTrama T) self) w ∧
       process_frame self =
         (Ok tt,
          mkBalanzaApp [] (oComm_is_open self) w T (timer_active self),
          [St_txtTrama T; St_txtPeso w; St_cPeso []]).
Proof.
  intros Hlen HT.
  destruct (decode_frame_publishes T (apply_store (St_txtTrama T) self)) as [w Hw].
  exists w. split; [done|].
  unfold_M. destruct (Z.leb_spec 30 (len (cPeso self))); [|lia].
  rewrite HT. unfold publishes in Hw. rewrite Hw. done.
Qed.

Lemma process_frame_raise self :
  30 <= len (cPeso self) → transformar_trama (cPeso self) = None →
  process_frame self = (Raised, self, []).
Proof.
  intros Hlen HT. unfold_M.
  destruct (Z.leb_spec 30 (len (cPeso self))); [|lia]. by rewrite HT.
Qed.

Lemma process_frame_empty self :
  cPeso self = [] →
  process_frame self =
    (Ok tt, apply_store (St_txtPeso sentinel) self, [St_txtPeso sentinel]).
Proof. intros H. unfold_M. by rewrite H. Qed.

Lemma process_frame_partial self :
  cPeso self ≠ [] → len (cPeso self) < 30 →
  process_frame self = (Ok tt, self, []).
Proof.
  intros Hne Hlen. unfold_M.
  destruct (Z.leb_spec 30 (len (cPeso self))); [lia|].
  destruct (Z.eqb_spec (len (cPeso self)) 0) as [H0|]; [|done].
  unfold len in H0. destruct (cPeso self); [done | simpl in H0; lia].
Qed.

(** The [except] clause: the flag is cleared, the port is closed unless
    closing fails, and nothing is raised either way. *)
Lemma tick_except_open io self :
  oComm_is_open self = true →
  tick_except io self =
    (Ok tt,
     mkBalanzaApp (cPeso self) (close_raises io) (txtPeso self) (txtTrama self) false,
     St_timer_active false :: (if close_raises io then [] else [St_is_open false])).
Proof.
  intros Hopen. unfold_M. simpl. rewrite Hopen.
  destruct (close_raises io); done.
Qed.

(** [tick] in terms of its two steps. *)
Lemma tick_closed io self :
  oComm_is_open self = false → tick io self = (Ok tt, self, []).
Proof. intros H. unfold_M. by rewrite H. Qed.

Lemma tick_try_open io self :
  oComm_is_open self = true →
  tick_try io self =
    match read_available io self with
    | (Ok _, self1, t1) =>
        match process_frame self1 with
        | (r, self2, t2) => (r, self2, t1 ++ t2)
        end
    | (Raised, self1, t1) => (Raised, self1, t1)
    end.
Proof.
  intros H. unfold tick_try. unfold mbind at 1, M_bind at 1, bind at 1, get at 1.
  rewrite H. simpl. unfold mbind, M_bind, bind.
  destruct (read_available io self) as [[[[]|] self1] t1]; [|done].
  by destruct (process_frame self1) as [[r self2] t2].
Qed.

Lemma tick_of_try io self :
  tick io self =
    match tick_try io self with
    | (Ok a, self1, t1) => (Ok a, self1, t1)
    | (Raised, self1, t1) =>
        match tick_except io self1 with
        | (r, self2, t2) => (r, self2, t1 ++ t2)
        end
    end.
Proof. reflexivity. Qed.

Lemma read_available_keeps_bytes io self self1 t1 :
  Forall byte_char (cPeso self) →
  read_available io self = (Ok tt, self1, t1) →
  Forall byte_char (cPeso self1).
Proof.
  intros Hb H. apply read_available_ok in H as [-> _]. simpl.
  apply Forall_app. split; [done | apply decode_latin1_bytes].
Qed.

(** On characters decoded from bytes the processing step raises
    nothing. *)
Lemma process_frame_bytes self :
  Forall byte_char (cPeso self) →
  ∃ self2 t2, process_frame self = (Ok tt, self2, t2).
Proof.
  intros Hb.
  destruct (Z.le_gt_cases 30 (len (cPeso self))) as [Hfull|Hshort].
  - destruct (process_frame_full self (resta_0x80 <$> cPeso self) Hfull)
      as (w & _ & E).
    { apply transformar_trama_valid. by apply byte_str_valid. }
    rewrite E. eauto.
  - destruct (cPeso self) as [|c s] eqn:Hc.
    + rewrite process_frame_empty by done. eauto.
    + rewrite process_frame_partial; [eauto | congruence | by rewrite Hc].
Qed.

Lemma tick_after_read io self self1 t1 :
  oComm_is_open self = true →
  Forall byte_char (cPeso self) →
  read_available io self = (Ok tt, self1, t1) →
  ∃ self2 t2,
    process_frame self1 = (Ok tt, self2, t2) ∧
    tick io self = (Ok tt, self2, t1 ++ t2).
Proof.
  intros Hopen Hb Hread.
  destruct (process_frame_bytes self1) as (self2 & t2 & E).
  { by eapply read_available_keeps_bytes. }
  exists self2, t2. split; [done|].
  rewrite tick_of_try, tick_try_open, Hread, E by done. done.
Qed.

Lemma tick_read_raised io self self1 t1 :
  oComm_is_open self = true →
  read_available io self = (Raised, self1, t1) →
  tick io self =
    (Ok tt,
     mkBalanzaApp (cPeso self) (close_raises io) (txtPeso self) (txtTrama self) false,
     St_timer_active false :: (if close_raises io then [] else [St_is_open false])).
Proof.
  intros Hopen Hread.
  destruct (read_available_raised _ _ _ _ Hread) as [-> ->].
  rewrite tick_of_try, tick_try_open, Hread, tick_except_open by done. done.
Qed.

(** ** The invariant of histories *)

Lemma init_inv : inv init.
Proof. split; [done|]. split; [done | constructor]. Qed.

Lemma tick_inv io self : inv self → inv (final (tick io self)).
Proof.
  intros Hinv. pose proof Hinv as (Hact & Hlen & Hb).
  destruct (oComm_is_open self) eqn:Hopen.
  2: { by rewrite tick_closed. }
  destruct (read_available io self) as [[[[]|] self1] t1] eqn:Hread.
  - destruct (tick_after_read _ _ _ _ Hopen Hb Hread) as (self2 & t2 & Hp & ->).
    assert (Hb1 := read_available_keeps_bytes _ _ _ _ Hb Hread).
    apply read_available_ok in Hread as [Hs1 _].
    assert (Hopen1 : oComm_is_open self1 = true) by by rewrite Hs1.
    unfold final. simpl.
    destruct (Z.le_gt_cases 30 (len (cPeso self1))) as [Hfull|Hshort].
    + destruct (process_frame_full self1 (resta_0x80 <$> cPeso self1) Hfull)
        as (w & _ & E).
      { apply transformar_trama_valid. by apply byte_str_valid. }
      rewrite E in Hp. injection Hp as <- <-.
      split; [|split]; simpl; [done | done | constructor].
    + destruct (cPeso self1) as [|c s] eqn:Hc.
      * rewrite process_frame_empty in Hp by done. injection Hp as <- <-.
        split; [|split]; simpl; rewrite ?Hc; done.
      * rewrite process_frame_partial in Hp; [| congruence | by rewrite Hc].
        injection Hp as <- <-. split; [|split]; rewrite ?Hc; done.
  - rewrite (tick_read_raised _ _ _ _ Hopen Hread). unfold final. simpl.
    split; [|split]; simpl; done.
Qed.

(** [toggle_connection], case by case. *)
Lemma toggle_connection_start io self :
  timer_active self = false →
  toggle_connection io self =
    if oComm_is_open self || open_raises io then (Raised, self, [])
    else (Ok tt,
          mkBalanzaApp (cPeso self) true (txtPeso self) (txtTrama self) true,
          [St_is_open true; St_timer_active true]).
Proof.
  intros Ha. unfold toggle_connection. unfold_M. rewrite Ha. simpl.
  destruct (oComm_is_open self); [done|]. by destruct (open_raises io).
Qed.

Lemma toggle_connection_stop io self :
  timer_active self = true →
  toggle_connection io self =
    if oComm_is_open self && close_raises io
    then (Raised,
          mkBalanzaApp (cPeso self) (oComm_is_open self) (txtPeso self)
            (txtTrama self) false,
          [St_timer_active false])
    else (Ok tt,
          mkBalanzaApp [] false (lit "0") (txtTrama self) false,
          St_timer_active false ::
            (if oComm_is_open self then [St_is_open false] else [])
            ++ [St_txtPeso (lit "0"); St_cPeso []]).
Proof.
  intros Ha. unfold toggle_connection. unfold_M. rewrite Ha. simpl.
  destruct (oComm_is_open self); [|done].
  by destruct (close_raises io).
Qed.

Lemma toggle_connection_inv io self :
  inv self → inv (final (toggle_connection io self)).
Proof.
  intros Hinv. pose proof Hinv as (Hact & Hlen & Hb).
  destruct (timer_active self) eqn:Ha.
  - rewrite toggle_connection_stop by done.
    destruct (oComm_is_open self && close_raises io); unfold final; simpl.
    + split; [|split]; simpl; done.
    + split; [|split]; simpl; [done | done | constructor].
  - rewrite toggle_connection_start by done.
    destruct (oComm_is_open self || open_raises io); unfold final; simpl; [done|].
    split; [|split]; simpl; done.
Qed.

Lemma step_inv self self' : step self self' → inv self → inv self'.
Proof.
  intros Hstep Hinv. destruct Hstep as [io self Ha|io self|io self].
  - by apply tick_inv.
  - pose proof (toggle_connection_inv io self Hinv) as Ht.
    unfold iniciar_lectura. unfold mbind at 1, M_bind at 1, bind at 1, get at 1.
    destruct (timer_active self); simpl; [done|].
    unfold mbind, M_bind, bind.
    destruct (toggle_connection io self) as [[[[]|] s1] t1]; done.
  - pose proof (toggle_connection_inv io self Hinv) as Ht.
    unfold detener_lectura. unfold mbind at 1, M_bind at 1, bind at 1, get at 1.
    destruct (timer_active self); simpl; [|done].
    unfold mbind, M_bind, bind.
    destruct (toggle_connection io self) as [[[[]|] s1] t1]; done.
Qed.

Lemma reachable_inv self : reachable self → inv self.
Proof.
  induction 1 as [|self self' _ IH Hstep]; [apply init_inv|].
  by eapply step_inv.
Qed.

Lemma reachable_started : reachable started.
Proof. exact (reach_step _ _ reach_init (step_iniciar (io_rx []) init)). Qed.

Lemma reachable_weighed : reachable weighed.
Proof.
  exact (reach_step _ _ reachable_started
           (step_tick (io_rx raw_example) started eq_refl)).
Qed.

(** ** The threshold *)

(** C6. In a pass of the running loop whose read step leaves at least
    30 characters in the buffer, the buffer is transformed, the result
    is published as the frame, the decoding step publishes a weight
    (whatever it finds, marker or not), and the pass ends with the
    buffer empty. Nothing else in a pass resets the buffer: below the
    threshold it is left as the read step left it, and when the read
    step raises it is left as it was. *)
Theorem tick_threshold_reset (io : port_io) (self : BalanzaApp) :
  reachable self → timer_active self = true →
  (∀ self1 t1,
     read_available io self = (Ok tt, self1, t1) → 30 <= len (cPeso self1) →
     ∃ T w,
       transformar_trama (cPeso self1) = Some T ∧
       publishes (decode_frame T) (apply_store (St_txtTrama T) self1) w ∧
       tick io self =
         (Ok tt,
          mkBalanzaApp [] (oComm_is_open self) w T (timer_active self),
          t1 ++ [St_txtTrama T; St_txtPeso w; St_cPeso []])) ∧
  (∀ self1 t1,
     read_available io self = (Ok tt, self1, t1) → len (cPeso self1) < 30 →
     cPeso (final (tick io self)) = cPeso self1) ∧
  (∀ self1 t1,
     read_available io self = (Raised, self1, t1) →
     cPeso (final (tick io self)) = cPeso self).
Proof.
  intros Hreach Ha. destruct (reachable_inv self Hreach) as (Hact & Hlen & Hb).
  specialize (Hact Ha). split; [|split].
  - intros self1 t1 Hread Hfull.
    destruct (tick_after_read _ _ _ _ Hact Hb Hread) as (self2 & t2 & Hp & ->).
    assert (Hb1 := read_available_keeps_bytes _ _ _ _ Hb Hread).
    destruct (process_frame_full self1 (resta_0x80 <$> cPeso self1) Hfull)
      as (w & Hw & E).
    { apply transformar_trama_valid. by apply byte_str_valid. }
    exists (resta_0x80 <$> cPeso self1), w. split; [|split; [done|]].
    { apply transformar_trama_valid. by apply byte_str_valid. }
    rewrite E in Hp. injection Hp as <- <-.
    apply read_available_ok in Hread as [-> _]. done.
  - intros self1 t1 Hread Hshort.
    destruct (tick_after_read _ _ _ _ Hact Hb Hread) as (self2 & t2 & Hp & ->).
    unfold final; simpl.
    destruct (cPeso self1) as [|c s] eqn:Hc.
    + rewrite process_frame_empty in Hp by done. injection Hp as <- <-.
      simpl. by rewrite Hc.
    + rewrite process_frame_partial in Hp; [| congruence | by rewrite Hc].
      injection Hp as <- <-. by rewrite Hc.
  - intros self1 t1 Hread.
    by rewrite (tick_read_raised _ _ _ _ Hact Hread).
Qed.

Lemma tick_threshold_reset_witness :
  ∃ T w,
    transformar_trama (decode_latin1 raw_example) = Some T ∧
    publishes (decode_frame T)
      (apply_store (St_txtTrama T)
         (apply_store (St_cPeso (decode_latin1 raw_example)) started)) w ∧
    tick (io_rx raw_example) started =
      (Ok tt, mkBalanzaApp [] true w T true,
       [St_cPeso (decode_latin1 raw_example)]
         ++ [St_txtTrama T; St_txtPeso w; St_cPeso []]).
Proof.
  destruct (tick_threshold_reset (io_rx raw_example) started
              reachable_started eq_refl) as (Hfull & _ & _).
  apply (Hfull (apply_store (St_cPeso (decode_latin1 raw_example)) started)
           [St_cPeso (decode_latin1 raw_example)]).
  - reflexivity.
  - vm_compute. discriminate.
Defined.

(** C7. In a pass of the running loop whose read step leaves fewer than
    30 characters in the buffer: when the buffer is empty the weight
    becomes the sentinel and the frame is left as it was; when it is not
    empty both the weight and the frame are left as they were. *)
Theorem tick_below_threshold (io : port_io) (self self1 : BalanzaApp) t1 :
  reachable self → timer_active self = true →
  read_available io self = (Ok tt, self1, t1) → len (cPeso self1) < 30 →
  (cPeso self1 = [] →
     txtPeso (final (tick io self)) = sentinel ∧
     txtTrama (final (tick io self)) = txtTrama self) ∧
  (cPeso self1 ≠ [] →
     txtPeso (final (tick io self)) = txtPeso self ∧
     txtTrama (final (tick io self)) = txtTrama self).
Proof.
  intros Hreach Ha Hread Hshort.
  destruct (reachable_inv self Hreach) as (Hact & Hlen & Hb).
  specialize (Hact Ha).
  destruct (tick_after_read _ _ _ _ Hact Hb Hread) as (self2 & t2 & Hp & ->).
  apply read_available_ok in Hread as [Hs1 _].
  unfold final; simpl. split; intros Hc.
  - rewrite process_frame_empty in Hp by done. injection Hp as <- <-.
    by rewrite Hs1.
  - rewrite process_frame_partial in Hp by done. injection Hp as <- <-.
    by rewrite Hs1.
Qed.

Lemma tick_below_threshold_witness :
  (txtPeso (final (tick (io_rx []) weighed)) = sentinel ∧
   txtTrama (final (tick (io_rx []) weighed)) = txtTrama weighed) ∧
  (txtPeso (final (tick (io_rx [x82; x8d]) weighed)) = txtPeso weighed ∧
   txtTrama (final (tick (io_rx [x82; x8d]) weighed)) = txtTrama weighed).
Proof.
  split.
  - apply (tick_below_threshold (io_rx []) weighed weighed []
             reachable_weighed eq_refl eq_refl); reflexivity.
  - apply (tick_below_threshold (io_rx [x82; x8d]) weighed
             (apply_store (St_cPeso [0x82; 0x8D]) weighed) [St_cPeso [0x82; 0x8D]]
             reachable_weighed eq_refl eq_refl); [reflexivity | discriminate].
Defined.

(** ** Exceptions inside a pass *)

Lemma process_frame_raised self s t :
  process_frame self = (Raised, s, t) → s = self ∧ t = [].
Proof.
  intros H. destruct (Z.le_gt_cases 30 (len (cPeso self))) as [Hfull|Hshort].
  - destruct (transformar_trama (cPeso self)) as [T|] eqn:HT.
    + destruct (process_frame_full self T Hfull HT) as (w & _ & E).
      rewrite E in H. discriminate.
    + rewrite process_frame_raise in H by done. by injection H as <- <-.
  - destruct (cPeso self) as [|c r] eqn:Hc.
    + rewrite process_frame_empty in H by done. discriminate.
    + rewrite process_frame_partial in H; [discriminate | congruence | by rewrite Hc].
Qed.

(** When the body of the [try] raises, the port was open and neither
    the weight nor the frame has been stored. *)
Lemma tick_try_raised io self s t :
  tick_try io self = (Raised, s, t) →
  oComm_is_open s = true ∧ txtPeso s = txtPeso self ∧
  txtTrama s = txtTrama self.
Proof.
  intros H. destruct (oComm_is_open self) eqn:Hopen.
  2: { unfold_M. rewrite Hopen in H. discriminate. }
  rewrite tick_try_open in H by done.
  destruct (read_available io self) as [[[[]|] self1] t1] eqn:Hread.
  - apply read_available_ok in Hread as [Hs1 _].
    destruct (process_frame self1) as [[r self2] t2] eqn:Hp.
    injection H as -> -> _.
    apply process_frame_raised in Hp as [-> _]. by rewrite Hs1.
  - apply read_available_raised in Hread as [-> ->]. by injection H as <- _.
Qed.

Lemma oTimer_Tick_inactive ios self :
  timer_active self = false → oTimer_Tick ios self = (Ok Exited, self, []).
Proof. intros Ha. destruct ios; simpl; unfold_M; by rewrite Ha. Qed.

Lemma oTimer_Tick_cons io rest self :
  timer_active self = true →
  oTimer_Tick (io :: rest) self =
    match tick io self with
    | (Ok _, self1, t1) =>
        match oTimer_Tick rest self1 with
        | (r, self2, t2) => (r, self2, t1 ++ t2)
        end
    | (Raised, self1, t1) => (Raised, self1, t1)
    end.
Proof.
  intros Ha. simpl. unfold mbind at 1, M_bind at 1, bind at 1, get at 1.
  rewrite Ha. simpl. unfold mbind, M_bind, bind.
  destruct (tick io self) as [[[[]|] self1] t1]; [|done].
  by destruct (oTimer_Tick rest self1) as [[r self2] t2].
Qed.

(** C8. When an exception is raised inside the [try] of a pass, the pass
    itself ends normally (the exception is caught), with the flag
    cleared, the port closed unless closing fails in its turn (that
    failure is swallowed), and the weight and the frame as they were
    before the pass; and the loop then exits, whatever the port would
    have done next: no further pass is made. *)
Theorem tick_io_error (io : port_io) (self : BalanzaApp) :
  timer_active self = true →
  outcome (tick_try io self) = Raised →
  outcome (tick io self) = Ok tt ∧
  timer_active (final (tick io self)) = false ∧
  oComm_is_open (final (tick io self)) = close_raises io ∧
  txtPeso (final (tick io self)) = txtPeso self ∧
  txtTrama (final (tick io self)) = txtTrama self ∧
  ∀ rest : list port_io,
    outcome (oTimer_Tick (io :: rest) self) = Ok Exited ∧
    final (oTimer_Tick (io :: rest) self) = final (tick io self) ∧
    stores (oTimer_Tick (io :: rest) self) = stores (tick io self).
Proof.
  intros Ha Hraise.
  destruct (tick_try io self) as [[r s] t] eqn:Htry.
  unfold outcome in Hraise; simpl in Hraise; subst r.
  destruct (tick_try_raised _ _ _ _ Htry) as (Hopen & Hpeso & Htrama).
  assert (Htick : tick io self =
    (Ok tt, mkBalanzaApp (cPeso s) (close_raises io) (txtPeso s) (txtTrama s) false,
     t ++ St_timer_active false :: (if close_raises io then [] else [St_is_open false]))).
  { by rewrite tick_of_try, Htry, tick_except_open. }
  assert (Hloop : ∀ rest, oTimer_Tick (io :: rest) self =
    (Ok Exited, final (tick io self), stores (tick io self))).
  { intros rest. rewrite oTimer_Tick_cons, Htick, oTimer_Tick_inactive by done.
    unfold final, stores. simpl. by rewrite app_nil_r. }
  split; [by rewrite Htick|]. split; [by rewrite Htick|].
  split; [by rewrite Htick|]. split; [by rewrite Htick|].
  split; [by rewrite Htick|].
  intros rest. by rewrite Hloop.
Qed.

Lemma tick_io_error_witness :
  outcome (tick (io_broken true) weighed) = Ok tt ∧
  timer_active (final (tick (io_broken true) weighed)) = false ∧
  oComm_is_open (final (tick (io_broken true) weighed)) = true ∧
  txtPeso (final (tick (io_broken true) weighed)) = txtPeso weighed ∧
  txtTrama (final (tick (io_broken true) weighed)) = txtTrama weighed ∧
  ∀ rest : list port_io,
    outcome (oTimer_Tick (io_broken true :: rest) weighed) = Ok Exited ∧
    final (oTimer_Tick (io_broken true :: rest) weighed)
      = final (tick (io_broken true) weighed) ∧
    stores (oTimer_Tick (io_broken true :: rest) weighed)
      = stores (tick (io_broken true) weighed).
Proof. exact (tick_io_error (io_broken true) weighed eq_refl eq_refl). Defined.

(** ** Stopping *)

(** C2, as the code has it. [POST /detener] on an active object whose
    port closes without failing answers that the reading is stopped and
    leaves the flag cleared, the port closed, the buffer empty and the
    weight "0"; the frame stays as last published. The status read that
    follows returns the weight "0" and that frame. *)
Theorem detener_lectura_active (io : port_io) (self : BalanzaApp) :
  timer_active self = true → close_raises io = false →
  outcome (detener_lectura io self) = Ok Lectura_detenida ∧
  final (detener_lectura io self)
    = mkBalanzaApp [] false (lit "0") (txtTrama self) false ∧
  home (final (detener_lectura io self)) = (lit "0", txtTrama self, false).
Proof.
  intros Ha Hclose.
  assert (E : detener_lectura io self =
    (Ok Lectura_detenida, mkBalanzaApp [] false (lit "0") (txtTrama self) false,
     (St_timer_active false ::
        (if oComm_is_open self then [St_is_open false] else [])
        ++ [St_txtPeso (lit "0"); St_cPeso []]) ++ [])).
  { unfold detener_lectura.
    unfold mbind at 1, M_bind at 1, bind at 1, get at 1.
    rewrite Ha. simpl. unfold mbind, M_bind, bind.
    rewrite toggle_connection_stop, Hclose, andb_false_r by done. done. }
  rewrite E. done.
Qed.

Lemma detener_lectura_active_witness :
  outcome (detener_lectura (io_rx []) weighed) = Ok Lectura_detenida ∧
  final (detener_lectura (io_rx []) weighed)
    = mkBalanzaApp [] false (lit "0") (txtTrama weighed) false ∧
  home (final (detener_lectura (io_rx []) weighed))
    = (lit "0", txtTrama weighed, false).
Proof. exact (detener_lectura_active (io_rx []) weighed eq_refl eq_refl). Defined.

(** C2 as stated fails: after a frame has been published, stopping
    leaves neither the sentinel as the weight nor an empty frame. *)
Lemma detener_lectura_not_sentinel :
  timer_active weighed = true ∧
  txtPeso (final (detener_lectura (io_rx []) weighed)) ≠ sentinel ∧
  txtTrama (final (detener_lectura (io_rx []) weighed)) ≠ [] ∧
  ¬ (timer_active (final (detener_lectura (io_rx []) weighed)) = false ∧
     txtPeso (final (detener_lectura (io_rx []) weighed)) = sentinel ∧
     txtTrama (final (detener_lectura (io_rx []) weighed)) = []).
Proof.
  split; [reflexivity|]. split; [|split].
  - vm_compute. discriminate.
  - vm_compute. discriminate.
  - intros (_ & H & _). vm_compute in H. discriminate.
Qed.

(** ** End to end *)

Lemma publishes_unique m self w w' :
  publishes m self w → publishes m self w' → w = w'.
Proof. unfold publishes. intros -> H. by injection H. Qed.

(** The processing step when the marker is in the corrected frame. *)
Lemma process_frame_marker self T p :
  30 <= len (cPeso self) → transformar_trama (cPeso self) = Some T →
  first_at T 0x02 p →
  process_frame self =
    (Ok tt,
     mkBalanzaApp [] (oComm_is_open self) (take 6 (drop (p + 4) T)) T
       (timer_active self),
     [St_txtTrama T; St_txtPeso (take 6 (drop (p + 4) T)); St_cPeso []]).
Proof.
  intros Hfull HT Hp.
  destruct (process_frame_full self T Hfull HT) as (w & Hw & ->).
  pose proof (decode_frame_at T p (apply_store (St_txtTrama T) self) Hp) as Hw'.
  by rewrite (publishes_unique _ _ _ _ Hw Hw').
Qed.

(** C1, as the code has it. One pass that receives, on an open port and
    with an empty buffer, the twelve bytes 82 8D 02 00 00 00 31 32 33
    34 35 36 followed by padding to at least 30 bytes publishes the
    weight made of two NUL characters and "1234": the transformation
    turns the leading 0x82 into the first 0x02 of the frame, at index
    0, so the weight is read at indices 4 to 9. *)
Theorem end_to_end (pad : list byte) (self : BalanzaApp) :
  oComm_is_open self = true → cPeso self = [] →
  (30 ≤ length (raw_head ++ pad))%nat →
  outcome (tick (io_rx (raw_head ++ pad)) self) = Ok tt ∧
  txtPeso (final (tick (io_rx (raw_head ++ pad)) self))
    = [0x00; 0x00] ++ lit "1234" ∧
  txtTrama (final (tick (io_rx (raw_head ++ pad)) self))
    = [0x02; 0x0D; 0x02; 0x00; 0x00; 0x00] ++ lit "123456"
        ++ (resta_0x80 <$> decode_latin1 pad) ∧
  cPeso (final (tick (io_rx (raw_head ++ pad)) self)) = [].
Proof.
  intros Hopen Hbuf Hlen.
  assert (Hb : Forall byte_char (cPeso self)) by (rewrite Hbuf; constructor).
  destruct (read_available_cases (io_rx (raw_head ++ pad)) self)
    as [E|[[Hrx E]|[_ E]]].
  - discriminate E.
  - discriminate Hrx.
  - destruct (tick_after_read _ _ _ _ Hopen Hb E) as (self2 & t2 & Hp & ->).
    rewrite Hbuf in Hp. simpl in Hp.
    rewrite (process_frame_marker _
               (resta_0x80 <$> decode_latin1 (raw_head ++ pad)) 0) in Hp.
    + injection Hp as <- <-. unfold outcome, final. simpl.
      split; [done|]. split; [reflexivity|]. split; reflexivity.
    + assert (Hl : 30 <= len (decode_latin1 (raw_head ++ pad)))
        by (unfold len; rewrite decode_latin1_length; lia).
      exact Hl.
    + exact (transformar_trama_valid _
               (byte_str_valid _ (decode_latin1_bytes (raw_head ++ pad)))).
    + split; [reflexivity | intros; lia].
Qed.

Lemma end_to_end_witness :
  outcome (tick (io_rx raw_example) started) = Ok tt ∧
  txtPeso (final (tick (io_rx raw_example) started)) = [0x00; 0x00] ++ lit "1234" ∧
  txtTrama (final (tick (io_rx raw_example) started))
    = [0x02; 0x0D; 0x02; 0x00; 0x00; 0x00] ++ lit "123456"
        ++ (resta_0x80 <$> decode_latin1 (replicate 18 x00)) ∧
  cPeso (final (tick (io_rx raw_example) started)) = [].
Proof.
  apply (end_to_end (replicate 18 x00) started); [reflexivity | reflexivity |].
  vm_compute. lia.
Defined.

(** C1 as stated fails: on the example padded with zero bytes, fed to
    the loop just started (empty buffer), the weight published is not
    "123456". *)
Lemma end_to_end_not_123456 :
  cPeso started = [] ∧ length raw_example = 30%nat ∧
  txtPeso (final (tick (io_rx raw_example) started)) ≠ lit "123456" ∧
  txtPeso (final (oTimer_Tick [io_rx raw_example] started)) ≠ lit "123456".
Proof.
  split; [reflexivity|]. split; [reflexivity|].
  split; vm_compute; discriminate.
Qed.

(** ** Methods change the object through their stores *)

Lemma apply_stores_app t1 t2 self :
  apply_stores (t1 ++ t2) self = apply_stores t2 (apply_stores t1 self).
Proof. apply foldl_app. Qed.

Lemma sound_ret {A} (a : A) : sound (ret a).
Proof. intros self. reflexivity. Qed.

Lemma sound_raise {A} : sound (@raise A).
Proof. intros self. reflexivity. Qed.

Lemma sound_get : sound get.
Proof. intros self. reflexivity. Qed.

Lemma sound_store w : sound (store w).
Proof. intros self. reflexivity. Qed.

Lemma sound_bind {A B} (m : M A) (k : A → M B) :
  sound m → (∀ a, sound (k a)) → sound (bind m k).
Proof.
  intros Hm Hk self. specialize (Hm self). unfold bind.
  destruct (m self) as [[[a|] s1] t1]; unfold final, stores in *; simpl in *.
  - specialize (Hk a s1). destruct (k a s1) as [[r s2] t2].
    unfold final, stores in *; simpl in *.
    by rewrite apply_stores_app, <- Hm.
  - done.
Qed.

Lemma sound_try_except {A} (body handler : M A) :
  sound body → sound handler → sound (try_except body handler).
Proof.
  intros Hb Hh self. specialize (Hb self). unfold try_except.
  destruct (body self) as [[[a|] s1] t1]; unfold final, stores in *; simpl in *.
  - done.
  - specialize (Hh s1). destruct (handler s1) as [[r s2] t2].
    unfold final, stores in *; simpl in *.
    by rewrite apply_stores_app, <- Hb.
Qed.

Lemma sound_if {A} (b : bool) (m1 m2 : M A) :
  sound m1 → sound m2 → sound (if b then m1 else m2).
Proof. by destruct b. Qed.

Ltac sound_tac :=
  repeat first
    [ apply sound_ret | apply sound_raise | apply sound_get | apply sound_store
    | apply sound_if | apply sound_try_except
    | apply sound_bind; [|intros ?] ].

Lemma sound_decode_frame T : sound (decode_frame T).
Proof. unfold decode_frame. sound_tac. Qed.

Lemma sound_tick io : sound (tick io).
Proof.
  unfold tick, tick_try, tick_except, process_frame, read_available,
    comm_in_waiting, comm_read, comm_close.
  sound_tac.
  destruct (transformar_trama _); sound_tac.
Qed.

Lemma tick_final_stores io self :
  apply_stores (stores (tick io self)) self = final (tick io self).
Proof. symmetry. apply sound_tick. Qed.

Lemma tick_outcome io self : outcome (tick io self) = Ok tt.
Proof.
  rewrite tick_of_try.
  destruct (tick_try io self) as [[[[]|] s] t] eqn:Htry; [done|].
  destruct (tick_try_raised _ _ _ _ Htry) as (Hopen & _).
  by rewrite tick_except_open.
Qed.

(** ** The stores of one pass, in order *)

Lemma process_frame_cases self :
  (∃ T w, process_frame self =
      (Ok tt, mkBalanzaApp [] (oComm_is_open self) w T (timer_active self),
       [St_txtTrama T; St_txtPeso w; St_cPeso []]))
  ∨ process_frame self = (Raised, self, [])
  ∨ process_frame self =
      (Ok tt, apply_store (St_txtPeso sentinel) self, [St_txtPeso sentinel])
  ∨ process_frame self = (Ok tt, self, []).
Proof.
  destruct (Z.le_gt_cases 30 (len (cPeso self))) as [Hfull|Hshort].
  - destruct (transformar_trama (cPeso self)) as [T|] eqn:HT.
    + destruct (process_frame_full self T Hfull HT) as (w & _ & E). left. eauto.
    + right; left. by apply process_frame_raise.
  - destruct (cPeso self) as [|c r] eqn:Hc.
    + right; right; left. by apply process_frame_empty.
    + right; right; right.
      apply process_frame_partial; [congruence | by rewrite Hc].
Qed.

Lemma tick_after_process io self self1 t1 :
  oComm_is_open self1 = true →
  tick_try io self = match process_frame self1 with
                     | (r, self2, t2) => (r, self2, t1 ++ t2)
                     end →
  tick_trace t1 (stores (tick io self)).
Proof.
  intros Hopen Htry. rewrite tick_of_try, Htry.
  destruct (process_frame_cases self1) as [(T & w & E)|[E|[E|E]]]; rewrite E.
  - right; right; left. by exists T, w.
  - rewrite tick_except_open by done. unfold stores; simpl.
    rewrite app_nil_r.
    destruct (close_raises io); [right; right; right; left | repeat right]; done.
  - right; left. by exists sentinel.
  - left. unfold stores; simpl. by rewrite app_nil_r.
Qed.

Lemma tick_shape io self :
  ∃ pre, read_trace pre ∧ tick_trace pre (stores (tick io self)).
Proof.
  destruct (oComm_is_open self) eqn:Hopen.
  2: { exists []. split; [by left|]. left. by rewrite tick_closed. }
  pose proof (tick_try_open io self Hopen) as Htry.
  destruct (read_available_cases io self) as [E|[[Hrx E]|[Hrx E]]];
    rewrite E in Htry.
  - exists []. split; [by left|].
    rewrite tick_of_try, Htry, tick_except_open by done. unfold stores; simpl.
    destruct (close_raises io); [right; right; right; left | repeat right]; done.
  - exists []. split; [by left|]. by eapply tick_after_process.
  - eexists. split; [right; eauto|].
    eapply tick_after_process; [|exact Htry]. done.
Qed.

Ltac pick_flags :=
  first
    [ by exists false, false, false
    | by exists false, false, true
    | by exists false, true, true
    | by exists true, true, true ].

(** Within one pass the frame is stored before the weight and the
    reader reads the weight before the frame: the three reads see, field
    by field, the object before the pass or after it, and never an
    earlier one for a later read. *)
Lemma trace_read_order pre t self i j k :
  read_trace pre → tick_trace pre t → (i ≤ j)%nat → (j ≤ k)%nat →
  ∃ a b c : bool,
    (a = true → b = true) ∧ (b = true → c = true) ∧
    txtPeso (after_stores i t self) = txtPeso (pick a self (apply_stores t self)) ∧
    txtTrama (after_stores j t self) = txtTrama (pick b self (apply_stores t self)) ∧
    timer_active (after_stores k t self)
      = timer_active (pick c self (apply_stores t self)).
Proof.
  intros Hpre Ht Hij Hjk. unfold after_stores.
  destruct Hpre as [->|[v ->]];
    destruct Ht as [->|[[w ->]|[(T & w & ->)|[->| ->]]]];
    destruct i as [|[|[|[|[|i]]]]]; destruct j as [|[|[|[|[|j]]]]];
    try (exfalso; lia);
    destruct k as [|[|[|[|[|k]]]]]; try (exfalso; lia);
    simpl; pick_flags.
Qed.

(** ** A status read against the running loop *)

Lemma after_ticks_0 ios self : after_ticks 0 ios self = self.
Proof. unfold after_ticks. rewrite take_0. reflexivity. Qed.

Lemma oTimer_Tick_step io rest self :
  timer_active self = true →
  final (oTimer_Tick (io :: rest) self)
    = final (oTimer_Tick rest (final (tick io self))) ∧
  stores (oTimer_Tick (io :: rest) self)
    = stores (tick io self) ++ stores (oTimer_Tick rest (final (tick io self))).
Proof.
  intros Ha. rewrite oTimer_Tick_cons by done.
  pose proof (tick_outcome io self) as Hok.
  destruct (tick io self) as [[r s1] t1]. unfold outcome in Hok; simpl in Hok.
  subst r. change (final (Ok (), s1, t1)) with s1.
  change (stores (Ok (), s1, t1)) with t1.
  by destruct (oTimer_Tick rest s1) as [[r s2] t2].
Qed.

Lemma after_ticks_S n io rest self :
  timer_active self = true →
  after_ticks (S n) (io :: rest) self = after_ticks n rest (final (tick io self)).
Proof.
  intros Ha. unfold after_ticks. simpl take.
  by destruct (oTimer_Tick_step io (take n rest) self Ha) as [-> _].
Qed.

Lemma after_stores_app_l i t1 t2 self :
  (i ≤ length t1)%nat → after_stores i (t1 ++ t2) self = after_stores i t1 self.
Proof. intros H. unfold after_stores. by rewrite take_app_le. Qed.

Lemma after_stores_app_r i t1 t2 self :
  (length t1 ≤ i)%nat →
  after_stores i (t1 ++ t2) self
    = after_stores (i - length t1) t2 (apply_stores t1 self).
Proof.
  intros H. unfold after_stores. by rewrite take_app_ge, apply_stores_app.
Qed.

Lemma after_stores_nil i self : after_stores i [] self = self.
Proof. unfold after_stores. by rewrite take_nil. Qed.

Lemma pick_after_ticks (a : bool) io rest self :
  timer_active self = true →
  pick a self (final (tick io self))
    = after_ticks (if a then 1 else 0)%nat (io :: rest) self.
Proof.
  intros Ha. destruct a; simpl.
  - by rewrite after_ticks_S, after_ticks_0.
  - by rewrite after_ticks_0.
Qed.

(** C9, as the code has it. [home] takes no lock: it reads the three
    attributes one after the other while the loop goes on storing. What
    the order of the stores within a pass (frame, then weight) and the
    order of the reads (weight, then frame, then flag) give is this:
    the weight returned is the weight at some boundary between passes,
    the frame that of the same or a later boundary, the flag that of
    the same or a still later one. So no read returns the weight of
    pass N with the frame of pass N-1. *)
Theorem home_during_loop (ios : list port_io) (self : BalanzaApp) (i j k : nat) :
  (i ≤ j)%nat → (j ≤ k)%nat →
  ∃ n m l : nat,
    (n ≤ m)%nat ∧ (m ≤ l)%nat ∧
    home_during (stores (oTimer_Tick ios self)) self i j k =
      (txtPeso (after_ticks n ios self),
       txtTrama (after_ticks m ios self),
       timer_active (after_ticks l ios self)).
Proof.
  revert self i j k. induction ios as [|io rest IH]; intros self i j k Hij Hjk.
  { exists 0%nat, 0%nat, 0%nat. split; [done|]. split; [done|].
    unfold home_during. simpl stores. unfold stores; simpl.
    by rewrite !after_stores_nil, !after_ticks_0. }
  destruct (timer_active self) eqn:Ha.
  2: { exists 0%nat, 0%nat, 0%nat. split; [done|]. split; [done|].
       rewrite oTimer_Tick_inactive by done. unfold home_during, stores; simpl.
       by rewrite !after_stores_nil, !after_ticks_0. }
  destruct (oTimer_Tick_step io rest self Ha) as [_ ->].
  pose proof (tick_final_stores io self) as Hfin.
  destruct (tick_shape io self) as (pre & Hpre & Ht).
  set (t1 := stores (tick io self)) in *.
  set (S1 := final (tick io self)) in *.
  set (t2 := stores (oTimer_Tick rest S1)).
  destruct (trace_read_order pre t1 self
              (i `min` length t1) (j `min` length t1) (k `min` length t1)
              Hpre Ht ltac:(lia) ltac:(lia))
    as (a & b & c & Hab & Hbc & HP & HT & HA).
  rewrite Hfin in HP, HT, HA. unfold S1 in HP, HT, HA.
  rewrite (pick_after_ticks a io rest) in HP by done.
  rewrite (pick_after_ticks b io rest) in HT by done.
  rewrite (pick_after_ticks c io rest) in HA by done.
  destruct (IH S1 (i - length t1) (j - length t1) (k - length t1)
              ltac:(lia) ltac:(lia))%nat
    as (n & m & l & Hnm & Hml & Heq).
  fold t2 in Heq. unfold home_during in Heq. injection Heq as HP' HT' HA'.
  unfold S1 in HP', HT', HA'.
  rewrite <- (after_ticks_S n io rest self Ha) in HP'.
  rewrite <- (after_ticks_S m io rest self Ha) in HT'.
  rewrite <- (after_ticks_S l io rest self Ha) in HA'.
  fold S1 in HP', HT', HA'.
  unfold home_during.
  destruct (le_lt_dec i (length t1)) as [Hi|Hi];
    destruct (le_lt_dec j (length t1)) as [Hj|Hj]; try (exfalso; lia);
    destruct (le_lt_dec k (length t1)) as [Hk|Hk]; try (exfalso; lia).
  - exists (if a then 1 else 0)%nat, (if b then 1 else 0)%nat,
      (if c then 1 else 0)%nat.
    split; [destruct a, b; try lia; by specialize (Hab eq_refl)|].
    split; [destruct b, c; try lia; by specialize (Hbc eq_refl)|].
    rewrite !after_stores_app_l by done.
    rewrite !Nat.min_l in HP, HT, HA by done. by rewrite HP, HT, HA.
  - exists (if a then 1 else 0)%nat, (if b then 1 else 0)%nat, (S l).
    split; [destruct a, b; try lia; by specialize (Hab eq_refl)|].
    split; [destruct b; lia|].
    rewrite !(after_stores_app_l i), !(after_stores_app_l j) by done.
    rewrite (after_stores_app_r k) by lia. rewrite Hfin.
    rewrite !Nat.min_l in HP, HT by done. by rewrite HP, HT, HA'.
  - exists (if a then 1 else 0)%nat, (S m), (S l).
    split; [destruct a; lia|]. split; [lia|].
    rewrite !(after_stores_app_l i) by done.
    rewrite (after_stores_app_r j), (after_stores_app_r k) by lia. rewrite Hfin.
    rewrite !Nat.min_l in HP by done. by rewrite HP, HT', HA'.
  - exists (S n), (S m), (S l). split; [lia|]. split; [lia|].
    rewrite (after_stores_app_r i), (after_stores_app_r j),
      (after_stores_app_r k) by lia.
    rewrite Hfin. by rewrite HP', HT', HA'.
Qed.

Lemma home_during_loop_witness :
  ∃ n m l : nat,
    (n ≤ m)%nat ∧ (m ≤ l)%nat ∧
    home_during (stores (oTimer_Tick [io_rx raw_example] started)) started 2 2 3 =
      (txtPeso (after_ticks n [io_rx raw_example] started),
       txtTrama (after_ticks m [io_rx raw_example] started),
       timer_active (after_ticks l [io_rx raw_example] started)).
Proof.
  apply (home_during_loop [io_rx raw_example] started 2 2 3); lia.
Defined.

(** C9 as stated fails: a read that falls between the store of the
    frame and the store of the weight returns the weight of before the
    pass with the frame of the pass, which is the state of the object
    at no boundary between passes. *)
Lemma home_during_torn :
  home_during (stores (oTimer_Tick [io_rx raw_example] started)) started 2 2 2
    = (txtPeso started, txtTrama weighed, true) ∧
  txtPeso weighed ≠ txtPeso started ∧
  txtTrama weighed ≠ txtTrama started ∧
  ∀ n : nat,
    home_during (stores (oTimer_Tick [io_rx raw_example] started)) started 2 2 2
      ≠ home (after_ticks n [io_rx raw_example] started).
Proof.
  split; [reflexivity|]. split; [vm_compute; discriminate|].
  split; [vm_compute; discriminate|].
  intros [|n] H.
  - vm_compute in H. discriminate.
  - unfold after_ticks in H. simpl take in H. rewrite take_nil in H.
    vm_compute in H. discriminate.
Qed.

(* ================================================================= *)
(** * Further properties of the code *)

(** ** The life cycle *)

(** X1. Whatever calls and passes came before: the loop is active only
    on an open port, and between passes the buffer holds fewer than 30
    characters, each decoded from one byte. *)
Theorem reachable_buffer_port (self : BalanzaApp) :
  reachable self →
  (timer_active self = true → oComm_is_open self = true) ∧
  len (cPeso self) < 30 ∧
  Forall (λ c, 0 <= ord c < 256) (cPeso self).
Proof. intros H. exact (reachable_inv self H). Qed.

Lemma reachable_buffer_port_witness :
  (timer_active weighed = true → oComm_is_open weighed = true) ∧
  len (cPeso weighed) < 30 ∧
  Forall (λ c, 0 <= ord c < 256) (cPeso weighed).
Proof. exact (reachable_buffer_port weighed reachable_weighed). Defined.

(** X2. No exception leaves the loop: however many passes it makes and
    whatever the port does, [oTimer_Tick] ends normally, and it has
    exited exactly when the flag is cleared. *)
Theorem oTimer_Tick_never_raises (ios : list port_io) (self : BalanzaApp) :
  outcome (oTimer_Tick ios self)
    = Ok (if timer_active (final (oTimer_Tick ios self)) then Running else Exited).
Proof.
  revert self. induction ios as [|io rest IH]; intros self; [done|].
  destruct (timer_active self) eqn:Ha.
  - rewrite oTimer_Tick_cons by done.
    pose proof (tick_outcome io self) as Hok.
    destruct (tick io self) as [[r s1] t1]. unfold outcome in Hok; simpl in Hok.
    subst r. specialize (IH s1).
    destruct (oTimer_Tick rest s1) as [[r s2] t2]. exact IH.
  - rewrite oTimer_Tick_inactive by done. unfold outcome, final; simpl.
    by rewrite Ha.
Qed.

Lemma apply_stores_tick_trace pre t self :
  read_trace pre → tick_trace pre t →
  (timer_active (apply_stores t self) = true → timer_active self = true) ∧
  (oComm_is_open (apply_stores t self) = true → oComm_is_open self = true).
Proof.
  intros Hpre Ht.
  destruct Hpre as [->|[v ->]];
    destruct Ht as [->|[[w ->]|[(T & w & ->)|[->| ->]]]]; simpl; done.
Qed.

(** X3. The loop only ever switches off: a pass, and so any run of the
    loop, leaves the flag set only if it was set and the port open only
    if it was open. *)
Theorem oTimer_Tick_never_starts (ios : list port_io) (self : BalanzaApp) :
  (timer_active (final (oTimer_Tick ios self)) = true → timer_active self = true) ∧
  (oComm_is_open (final (oTimer_Tick ios self)) = true → oComm_is_open self = true).
Proof.
  revert self. induction ios as [|io rest IH]; intros self; [done|].
  destruct (timer_active self) eqn:Ha.
  - destruct (oTimer_Tick_step io rest self Ha) as [-> _].
    destruct (IH (final (tick io self))) as [_ Hopen].
    split; [done|]. intros H. specialize (Hopen H).
    destruct (tick_shape io self) as (pre & Hpre & Ht).
    rewrite <- tick_final_stores in Hopen.
    exact (proj2 (apply_stores_tick_trace pre _ self Hpre Ht) Hopen).
  - rewrite oTimer_Tick_inactive by done. unfold final; simpl.
    split; [congruence | done].
Qed.

Lemma iniciar_lectura_inactive io self :
  timer_active self = false →
  iniciar_lectura io self =
    match toggle_connection io self with
    | (Ok _, s1, t1) => (Ok Lectura_iniciada, s1, t1 ++ [])
    | (Raised, s1, t1) => (Raised, s1, t1)
    end.
Proof.
  intros Ha. unfold iniciar_lectura.
  unfold mbind at 1, M_bind at 1, bind at 1, get at 1.
  rewrite Ha. simpl. unfold mbind, M_bind, bind.
  by destruct (toggle_connection io self) as [[[[]|] s1] t1].
Qed.

Lemma iniciar_lectura_active io self :
  timer_active self = true → iniciar_lectura io self = (Ok Ya_activa, self, []).
Proof.
  intros Ha. unfold iniciar_lectura.
  unfold mbind at 1, M_bind at 1, bind at 1, get at 1. by rewrite Ha.
Qed.

Lemma detener_lectura_inactive io self :
  timer_active self = false → detener_lectura io self = (Ok Ya_detenida, self, []).
Proof.
  intros Ha. unfold detener_lectura.
  unfold mbind at 1, M_bind at 1, bind at 1, get at 1. by rewrite Ha.
Qed.

Lemma detener_lectura_toggle io self :
  timer_active self = true →
  detener_lectura io self =
    match toggle_connection io self with
    | (Ok _, s1, t1) => (Ok Lectura_detenida, s1, t1 ++ [])
    | (Raised, s1, t1) => (Raised, s1, t1)
    end.
Proof.
  intros Ha. unfold detener_lectura.
  unfold mbind at 1, M_bind at 1, bind at 1, get at 1.
  rewrite Ha. simpl. unfold mbind, M_bind, bind.
  by destruct (toggle_connection io self) as [[[[]|] s1] t1].
Qed.

(** X4. [POST /iniciar] on a stopped object: when the port opens, the
    flag is set and the port is open, while the weight, the frame and
    the buffer are left as they were (the weight is not reset); when
    [open] fails the exception reaches the caller and nothing has been
    stored, so the flag stays cleared. *)
Theorem iniciar_lectura_stopped (io : port_io) (self : BalanzaApp) :
  timer_active self = false →
  (oComm_is_open self = false → open_raises io = false →
     iniciar_lectura io self =
       (Ok Lectura_iniciada,
        mkBalanzaApp (cPeso self) true (txtPeso self) (txtTrama self) true,
        [St_is_open true; St_timer_active true])) ∧
  (open_raises io = true → iniciar_lectura io self = (Raised, self, [])).
Proof.
  intros Ha. split.
  - intros Hopen Hio.
    by rewrite iniciar_lectura_inactive, toggle_connection_start, Hopen, Hio.
  - intros Hio.
    rewrite iniciar_lectura_inactive, toggle_connection_start, Hio by done.
    by rewrite orb_true_r.
Qed.

Lemma iniciar_lectura_stopped_witness :
  iniciar_lectura (io_rx []) init =
    (Ok Lectura_iniciada,
     mkBalanzaApp [] true sentinel [] true,
     [St_is_open true; St_timer_active true]) ∧
  iniciar_lectura io_open_fails init = (Raised, init, []).
Proof.
  destruct (iniciar_lectura_stopped (io_rx []) init eq_refl) as [Hok _].
  destruct (iniciar_lectura_stopped io_open_fails init eq_refl) as [_ Hfail].
  split; [exact (Hok eq_refl eq_refl) | exact (Hfail eq_refl)].
Defined.

(** X5. Starting twice: once [POST /iniciar] has started the reading, a
    second [POST /iniciar] answers that it is already active and stores
    nothing, whatever the port would do. *)
Theorem iniciar_lectura_twice (io1 io2 : port_io) (self : BalanzaApp) :
  outcome (iniciar_lectura io1 self) = Ok Lectura_iniciada →
  iniciar_lectura io2 (final (iniciar_lectura io1 self))
    = (Ok Ya_activa, final (iniciar_lectura io1 self), []).
Proof.
  intros Hok. apply iniciar_lectura_active.
  destruct (timer_active self) eqn:Ha.
  - rewrite iniciar_lectura_active in Hok by done. discriminate.
  - rewrite iniciar_lectura_inactive, toggle_connection_start in * by done.
    by destruct (oComm_is_open self || open_raises io1).
Qed.

Lemma iniciar_lectura_twice_witness :
  iniciar_lectura io_open_fails (final (iniciar_lectura (io_rx []) init))
    = (Ok Ya_activa, final (iniciar_lectura (io_rx []) init), []).
Proof. exact (iniciar_lectura_twice (io_rx []) io_open_fails init eq_refl). Defined.

(** X6. After [POST /detener] the flag is cleared, whether the object
    was active or not and whether closing the port failed or not; so a
    second [POST /detener] answers that the reading is already stopped
    and stores nothing. *)
Theorem detener_lectura_twice (io1 io2 : port_io) (self : BalanzaApp) :
  timer_active (final (detener_lectura io1 self)) = false ∧
  detener_lectura io2 (final (detener_lectura io1 self))
    = (Ok Ya_detenida, final (detener_lectura io1 self), []).
Proof.
  assert (H : timer_active (final (detener_lectura io1 self)) = false).
  { destruct (timer_active self) eqn:Ha.
    - rewrite detener_lectura_toggle, toggle_connection_stop by done.
      by destruct (oComm_is_open self && close_raises io1).
    - by rewrite detener_lectura_inactive. }
  split; [done | by apply detener_lectura_inactive].
Qed.

(** X7. [POST /detener] when closing the port fails: the exception
    reaches the caller after the flag has been cleared and before
    anything is reset, so the port stays open and the weight, the frame
    and the buffer are left as they were. *)
Theorem detener_lectura_close_fails (io : port_io) (self : BalanzaApp) :
  timer_active self = true → oComm_is_open self = true →
  close_raises io = true →
  detener_lectura io self =
    (Raised,
     mkBalanzaApp (cPeso self) true (txtPeso self) (txtTrama self) false,
     [St_timer_active false]).
Proof.
  intros Ha Hopen Hclose.
  by rewrite detener_lectura_toggle, toggle_connection_stop, Hopen, Hclose.
Qed.

Lemma detener_lectura_close_fails_witness :
  detener_lectura io_close_fails weighed =
    (Raised,
     mkBalanzaApp [] true (txtPeso weighed) (txtTrama weighed) false,
     [St_timer_active false]).
Proof.
  exact (detener_lectura_close_fails io_close_fails weighed eq_refl eq_refl eq_refl).
Defined.

(** X8. A read error followed by a restart: when a pass of the running
    loop raises and the port then closes, and [POST /iniciar] reopens
    it, the object is exactly what it was before the error. The buffer
    in particular keeps the part of a frame it held, where a stop would
    have emptied it. *)
Theorem error_then_restart (io io' : port_io) (self : BalanzaApp) :
  reachable self → timer_active self = true →
  outcome (tick_try io self) = Raised →
  close_raises io = false → open_raises io' = false →
  outcome (iniciar_lectura io' (final (tick io self))) = Ok Lectura_iniciada ∧
  final (iniciar_lectura io' (final (tick io self))) = self.
Proof.
  intros Hreach Ha Hraise Hclose Hopen'.
  destruct (reachable_inv self Hreach) as (Hact & _ & Hb).
  specialize (Hact Ha).
  destruct (read_available io self) as [[[[]|] self1] t1] eqn:Hread.
  - exfalso. rewrite tick_try_open, Hread in Hraise by done.
    destruct (process_frame_bytes self1) as (s2 & t2 & E).
    { by eapply read_available_keeps_bytes. }
    rewrite E in Hraise. discriminate.
  - assert (Hf : final (tick io self) =
        mkBalanzaApp (cPeso self) false (txtPeso self) (txtTrama self) false)
      by by rewrite (tick_read_raised _ _ _ _ Hact Hread), Hclose.
    rewrite Hf.
    rewrite iniciar_lectura_inactive, toggle_connection_start by done.
    simpl. rewrite Hopen'. unfold outcome, final; simpl.
    split; [done|]. destruct self; simpl in *. by subst.
Qed.

Lemma error_then_restart_witness :
  outcome (iniciar_lectura (io_rx [])
             (final (tick (io_broken false)
                       (final (tick (io_rx [x82; x8d]) started)))))
    = Ok Lectura_iniciada ∧
  final (iniciar_lectura (io_rx [])
           (final (tick (io_broken false)
                     (final (tick (io_rx [x82; x8d]) started)))))
    = final (tick (io_rx [x82; x8d]) started).
Proof.
  apply (error_then_restart (io_broken false) (io_rx [])
           (final (tick (io_rx [x82; x8d]) started))); try reflexivity.
  exact (reach_step _ _ reachable_started
           (step_tick (io_rx [x82; x8d]) started eq_refl)).
Defined.

(** ** More on [transformar_trama] *)

(** X9. [transformar_trama] raises on no Python string at all, not only
    on those decoded from bytes, and it works piece by piece: the
    transformation of a concatenation is the concatenation of the
    transformations, each of the length of its piece. *)
Theorem transformar_trama_app (s t : str) :
  Forall valid_char s → Forall valid_char t →
  ∃ s' t',
    transformar_trama s = Some s' ∧ transformar_trama t = Some t' ∧
    length s' = length s ∧ length t' = length t ∧
    transformar_trama (s ++ t) = Some (s' ++ t').
Proof.
  intros Hs Ht. exists (resta_0x80 <$> s), (resta_0x80 <$> t).
  rewrite !transformar_trama_valid, fmap_app, !length_fmap;
    [done | by apply Forall_app | done..].
Qed.

Lemma transformar_trama_app_witness :
  ∃ s' t',
    transformar_trama [0x82; 0x1F600] = Some s' ∧
    transformar_trama [0x8D; 0x31] = Some t' ∧
    length s' = 2%nat ∧ length t' = 2%nat ∧
    transformar_trama ([0x82; 0x1F600] ++ [0x8D; 0x31]) = Some (s' ++ t').
Proof.
  apply (transformar_trama_app [0x82; 0x1F600] [0x8D; 0x31]);
    repeat constructor; unfold valid_char; lia.
Defined.

(** X10. Beyond the bytes the transformation is not idempotent: when a
    string holds a character of code point 0x100 or more, transforming
    the result once more changes it again. *)
Theorem transformar_trama_not_idempotent (s : str) (c : char) :
  Forall valid_char s → c ∈ s → 0x100 <= ord c →
  ∃ t, transformar_trama s = Some t ∧ transformar_trama t ≠ Some t.
Proof.
  intros Hs Hc Hbig. exists (resta_0x80 <$> s).
  split; [by apply transformar_trama_valid|].
  assert (Hv : Forall valid_char (resta_0x80 <$> s)).
  { apply Forall_fmap. eapply Forall_impl; [exact Hs|].
    intros x Hx. unfold valid_char, resta_0x80 in *. simpl.
    destruct (Z.leb_spec 0x80 x); lia. }
  rewrite transformar_trama_valid by done. intros Heq.
  injection Heq as Heq.
  apply list_elem_of_lookup in Hc as [i Hi].
  assert (H1 : (resta_0x80 <$> s) !! i = Some (resta_0x80 c))
    by by rewrite list_lookup_fmap, Hi.
  assert (H2 : (resta_0x80 <$> (resta_0x80 <$> s)) !! i
               = Some (resta_0x80 (resta_0x80 c)))
    by by rewrite list_lookup_fmap, H1.
  rewrite Heq, H1 in H2. injection H2 as H2.
  unfold resta_0x80, ord in *.
  destruct (Z.leb_spec 0x80 c); [|lia].
  destruct (Z.leb_spec 0x80 (c - 0x80)); lia.
Qed.

Lemma transformar_trama_not_idempotent_witness :
  ∃ t, transformar_trama [0x31; 0x100] = Some t ∧ transformar_trama t ≠ Some t.
Proof.
  apply (transformar_trama_not_idempotent [0x31; 0x100] 0x100).
  - repeat constructor; unfold valid_char; lia.
  - apply elem_of_cons. right. apply elem_of_cons. by left.
  - unfold ord. lia.
Defined.

(** ** More on the decoding step *)

Lemma decode_frame_weight_cases (s : str) self w :
  publishes (decode_frame s) self w →
  ((0x02 ∉ s) ∧ w = sentinel)
  ∨ ∃ p, first_at s 0x02 p ∧ w = take 6 (drop (p + 4) s).
Proof.
  intros Hw. destruct (decide (0x02 ∈ s)) as [Hin|Hout].
  - destruct (first_at_exists s _ Hin) as [p Hp]. right. exists p.
    split; [done|]. eapply publishes_unique; [exact Hw|].
    by apply decode_frame_at.
  - left. split; [done|]. eapply publishes_unique; [exact Hw|].
    by apply decode_frame_absent.
Qed.



(** ** More on one pass *)

Lemma tick_full io self self1 t1 :
  oComm_is_open self = true → Forall byte_char (cPeso self) →
  read_available io self = (Ok tt, self1, t1) → 30 <= len (cPeso self1) →
  ∃ s w,
    publishes (decode_frame (resta_0x80 <$> cPeso self1)) s w ∧
    final (tick io self) =
      mkBalanzaApp [] (oComm_is_open self) w (resta_0x80 <$> cPeso self1)
        (timer_active self).
Proof.
  intros Hopen Hb Hread Hfull.
  destruct (tick_after_read _ _ _ _ Hopen Hb Hread) as (self2 & t2 & Hp & ->).
  assert (Hb1 := read_available_keeps_bytes _ _ _ _ Hb Hread).
  destruct (process_frame_full self1 (resta_0x80 <$> cPeso self1) Hfull)
    as (w & Hw & E).
  { apply transformar_trama_valid. by apply byte_str_valid. }
  eexists _, w. split; [exact Hw|].
  rewrite E in Hp. injection Hp as <- <-.
  apply read_available_ok in Hread as [-> _]. done.
Qed.

Lemma resta_0x80_stx c : byte_char c → resta_0x80 c = 0x02 ↔ stx_raw c.
Proof.
  unfold byte_char, resta_0x80, stx_raw.
  destruct (Z.leb_spec 0x80 c); lia.
Qed.

Lemma first_stx_raw_first_at (raw : str) p :
  Forall byte_char raw → first_stx_raw raw p →
  first_at (resta_0x80 <$> raw) 0x02 p.
Proof.
  intros Hb [(c & Hc & Hstx) Hlt]. split.
  - rewrite list_lookup_fmap, Hc. simpl. f_equal.
    apply resta_0x80_stx; [|done].
    eapply Forall_forall; [exact Hb | by eapply list_elem_of_lookup_2].
  - intros i Hi. rewrite list_lookup_fmap.
    destruct (raw !! i) as [x|] eqn:Hx; [|done]. simpl. intros [= Hr].
    apply (Hlt i x Hi Hx). apply resta_0x80_stx; [|done].
    eapply Forall_forall; [exact Hb | by eapply list_elem_of_lookup_2].
Qed.

Lemma no_stx_raw_absent (raw : str) :
  Forall byte_char raw → Forall (λ c, ¬ stx_raw c) raw →
  0x02 ∉ (resta_0x80 <$> raw).
Proof.
  intros Hb Hno Hin. apply list_elem_of_fmap in Hin as (c & Hc & Hin).
  apply (proj1 (Forall_forall _ _) Hno c Hin).
  apply resta_0x80_stx; [|done]. by apply (proj1 (Forall_forall _ _) Hb c Hin).
Qed.

(** X12. Which raw bytes frame a weight. In a pass of the running loop
    that reaches the threshold, the marker is the first buffered
    character that is 0x02 or 0x82; when it is at index [p], the weight
    published is the transformation of the (at most six) raw characters
    from [p + 4] on, the frame is the transformation of the whole
    buffer, and the buffer ends empty. *)
Theorem tick_weight_after_raw_stx
    (io : port_io) (self self1 : BalanzaApp) t1 (p : nat) :
  reachable self → timer_active self = true →
  read_available io self = (Ok tt, self1, t1) → 30 <= len (cPeso self1) →
  first_stx_raw (cPeso self1) p →
  transformar_trama (take 6 (drop (p + 4) (cPeso self1)))
    = Some (txtPeso (final (tick io self))) ∧
  transformar_trama (cPeso self1) = Some (txtTrama (final (tick io self))) ∧
  cPeso (final (tick io self)) = [].
Proof.
  intros Hreach Ha Hread Hfull Hp.
  destruct (reachable_inv self Hreach) as (Hact & _ & Hb).
  specialize (Hact Ha).
  assert (Hb1 := read_available_keeps_bytes _ _ _ _ Hb Hread).
  destruct (tick_full _ _ _ _ Hact Hb Hread Hfull) as (s & w & Hw & ->).
  simpl.
  pose proof (decode_frame_at _ p s (first_stx_raw_first_at _ _ Hb1 Hp)) as Hw'.
  rewrite (publishes_unique _ _ _ _ Hw Hw').
  split; [|split; [|done]].
  - rewrite transformar_trama_valid, fmap_take, fmap_drop; [done|].
    by apply byte_str_valid, Forall_take, Forall_drop.
  - apply transformar_trama_valid. by apply byte_str_valid.
Qed.

Lemma tick_weight_after_raw_stx_witness :
  transformar_trama (take 6 (drop (1 + 4) (decode_latin1 raw_stream)))
    = Some (txtPeso (final (tick (io_rx raw_stream) started))) ∧
  transformar_trama (decode_latin1 raw_stream)
    = Some (txtTrama (final (tick (io_rx raw_stream) started))) ∧
  cPeso (final (tick (io_rx raw_stream) started)) = [].
Proof.
  apply (tick_weight_after_raw_stx (io_rx raw_stream) started
           (apply_store (St_cPeso (decode_latin1 raw_stream)) started)
           [St_cPeso (decode_latin1 raw_stream)] 1
           reachable_started eq_refl eq_refl).
  - vm_compute. discriminate.
  - split.
    + exists 0x82. split; [reflexivity | by right].
    + intros [|i] c Hi Hc [H|H]; try lia;
        vm_compute in Hc; injection Hc as <-; discriminate.
Defined.

(** X13. A frame without marker. In a pass of the running loop that
    reaches the threshold with no 0x02 and no 0x82 in the buffer, the
    weight becomes the sentinel, and still the transformed buffer is
    published as the frame and the buffer ends empty. *)
Theorem tick_no_raw_stx (io : port_io) (self self1 : BalanzaApp) t1 :
  reachable self → timer_active self = true →
  read_available io self = (Ok tt, self1, t1) → 30 <= len (cPeso self1) →
  Forall (λ c, ¬ stx_raw c) (cPeso self1) →
  txtPeso (final (tick io self)) = sentinel ∧
  transformar_trama (cPeso self1) = Some (txtTrama (final (tick io self))) ∧
  cPeso (final (tick io self)) = [].
Proof.
  intros Hreach Ha Hread Hfull Hno.
  destruct (reachable_inv self Hreach) as (Hact & _ & Hb).
  specialize (Hact Ha).
  assert (Hb1 := read_available_keeps_bytes _ _ _ _ Hb Hread).
  destruct (tick_full _ _ _ _ Hact Hb Hread Hfull) as (s & w & Hw & ->).
  simpl.
  pose proof (decode_frame_absent _ s (no_stx_raw_absent _ Hb1 Hno)) as Hw'.
  rewrite (publishes_unique _ _ _ _ Hw Hw').
  split; [done|]. split; [|done].
  apply transformar_trama_valid. by apply byte_str_valid.
Qed.

Lemma tick_no_raw_stx_witness :
  txtPeso (final (tick (io_rx raw_no_stx) weighed)) = sentinel ∧
  transformar_trama (decode_latin1 raw_no_stx)
    = Some (txtTrama (final (tick (io_rx raw_no_stx) weighed))) ∧
  cPeso (final (tick (io_rx raw_no_stx) weighed)) = [].
Proof.
  apply (tick_no_raw_stx (io_rx raw_no_stx) weighed
           (apply_store (St_cPeso (decode_latin1 raw_no_stx)) weighed)
           [St_cPeso (decode_latin1 raw_no_stx)]
           reachable_weighed eq_refl eq_refl).
  - vm_compute. discriminate.
  - vm_compute. repeat constructor; intros [H|H]; discriminate.
Defined.

(** ** Frames that arrive in pieces *)

Lemma read_available_rx d self :
  ∃ t1, read_available (io_rx d) self =
    (Ok tt,
     mkBalanzaApp (cPeso self ++ decode_latin1 d) (oComm_is_open self)
       (txtPeso self) (txtTrama self) (timer_active self),
     t1).
Proof.
  destruct (read_available_cases (io_rx d) self) as [E|[[Hrx E]|[Hrx E]]].
  - exfalso. revert E. unfold_M. simpl.
    destruct (0 <? Z.of_nat (length d)); discriminate.
  - simpl in Hrx. subst d. rewrite E. exists []. simpl. rewrite app_nil_r.
    by destruct self.
  - rewrite E. by eexists.
Qed.

Lemma tick_final_after_read io self self1 t1 :
  oComm_is_open self = true →
  read_available io self = (Ok tt, self1, t1) →
  final (tick io self) = final (try_except process_frame (tick_except io) self1).
Proof.
  intros Hopen Hread. rewrite tick_of_try, tick_try_open, Hread by done.
  unfold try_except.
  destruct (process_frame self1) as [[[[]|] s2] t2]; [done|].
  by destruct (tick_except io s2) as [[r s3] t3].
Qed.

(** X14. A frame split over two reads. On an open port, when the first
    read leaves the buffer non-empty and short of the threshold, two
    passes that receive [d1] and then [d2] leave the object exactly as
    one pass that receives [d1 ++ d2]: the weight is decoded from the
    characters accumulated over both. *)
Theorem tick_split_frame (d1 d2 : list byte) (self : BalanzaApp) :
  oComm_is_open self = true →
  cPeso self ++ decode_latin1 d1 ≠ [] →
  len (cPeso self ++ decode_latin1 d1) < 30 →
  final (tick (io_rx d2) (final (tick (io_rx d1) self)))
    = final (tick (io_rx (d1 ++ d2)) self).
Proof.
  intros Hopen Hne Hshort.
  set (self1 := mkBalanzaApp (cPeso self ++ decode_latin1 d1) (oComm_is_open self)
                  (txtPeso self) (txtTrama self) (timer_active self)).
  assert (Hf1 : final (tick (io_rx d1) self) = self1).
  { destruct (read_available_rx d1 self) as [t1 E1].
    rewrite (tick_final_after_read _ _ _ _ Hopen E1). fold self1.
    unfold try_except. by rewrite (process_frame_partial self1). }
  rewrite Hf1.
  destruct (read_available_rx (d1 ++ d2) self) as [t12 E12].
  destruct (read_available_rx d2 self1) as [t2 E2].
  assert (Hopen1 : oComm_is_open self1 = true) by done.
  rewrite (tick_final_after_read _ _ _ _ Hopen E12).
  rewrite (tick_final_after_read _ _ _ _ Hopen1 E2).
  unfold self1; simpl. by rewrite decode_latin1_app, app_assoc.
Qed.

Lemma tick_split_frame_witness :
  final (tick (io_rx raw_device_rest) (final (tick (io_rx raw_device) started)))
    = final (tick (io_rx (raw_device ++ raw_device_rest)) started).
Proof.
  apply (tick_split_frame raw_device raw_device_rest started);
    [reflexivity | discriminate | reflexivity].
Defined.

(** ** What a status read can return *)

Lemma sentinel_pub : Forall canonical_char sentinel ∧ (length sentinel ≤ 6)%nat.
Proof.
  split; [|vm_compute; lia].
  repeat constructor; unfold canonical_char; lia.
Qed.

Lemma tick_publishes_cases io self :
  inv self →
  (txtPeso (final (tick io self)) = txtPeso self ∧
   txtTrama (final (tick io self)) = txtTrama self)
  ∨ (txtPeso (final (tick io self)) = sentinel ∧
     txtTrama (final (tick io self)) = txtTrama self)
  ∨ (∃ (b : str) s,
       Forall byte_char b ∧ 30 <= len b ∧
       txtTrama (final (tick io self)) = resta_0x80 <$> b ∧
       publishes (decode_frame (resta_0x80 <$> b)) s
         (txtPeso (final (tick io self)))).
Proof.
  intros (Hact & Hlen & Hb).
  destruct (oComm_is_open self) eqn:Hopen.
  2: { left. by rewrite tick_closed. }
  destruct (read_available io self) as [[[[]|] self1] t1] eqn:Hread.
  - assert (Hb1 := read_available_keeps_bytes _ _ _ _ Hb Hread).
    destruct (Z.le_gt_cases 30 (len (cPeso self1))) as [Hfull|Hshort].
    + right; right.
      destruct (tick_full _ _ _ _ Hopen Hb Hread Hfull) as (s & w & Hw & ->).
      exists (cPeso self1), s. simpl. done.
    + destruct (tick_after_read _ _ _ _ Hopen Hb Hread) as (self2 & t2 & Hp & ->).
      apply read_available_ok in Hread as [Hs1 _].
      unfold final; simpl.
      destruct (cPeso self1) as [|c r] eqn:Hc.
      * right; left. rewrite process_frame_empty in Hp by done.
        injection Hp as <- <-. by rewrite Hs1.
      * left. rewrite process_frame_partial in Hp; [|congruence | by rewrite Hc].
        injection Hp as <- <-. by rewrite Hs1.
  - left. by rewrite (tick_read_raised _ _ _ _ Hopen Hread).
Qed.

Lemma tick_inv_pub io self :
  inv self → inv_pub self → inv_pub (final (tick io self)).
Proof.
  intros Hinv (HT & HTlen & HP & HPlen).
  destruct sentinel_pub as [Hs1 Hs2].
  unfold inv_pub.
  destruct (tick_publishes_cases io self Hinv)
    as [[-> ->]|[[-> ->]|(b & s & Hb & Hfull & -> & Hw)]]; [done | done |].
  assert (Hlow : Forall canonical_char (resta_0x80 <$> b)) by by apply map_resta_low.
  split; [done|]. split.
  { right. unfold len in *. by rewrite length_fmap. }
  destruct (decode_frame_weight_cases _ _ _ Hw) as [[_ ->]|(p & _ & ->)]; [done|].
  split.
  - by apply Forall_take, Forall_drop.
  - rewrite length_take. lia.
Qed.

Lemma toggle_connection_inv_pub io self :
  inv_pub self → inv_pub (final (toggle_connection io self)).
Proof.
  intros Hpub. pose proof Hpub as (HT & HTlen & HP & HPlen).
  destruct (timer_active self) eqn:Ha.
  - rewrite toggle_connection_stop by done.
    destruct (oComm_is_open self && close_raises io); [done|].
    unfold final; simpl. split; [done|]. split; [done|]. split.
    + repeat constructor; unfold canonical_char; lia.
    + vm_compute. lia.
  - rewrite toggle_connection_start by done.
    by destruct (oComm_is_open self || open_raises io).
Qed.

Lemma step_inv_pub self self' :
  step self self' → inv self → inv_pub self → inv_pub self'.
Proof.
  intros Hstep Hinv Hpub. destruct Hstep as [io self Ha|io self|io self].
  - by apply tick_inv_pub.
  - pose proof (toggle_connection_inv_pub io self Hpub) as Ht.
    destruct (timer_active self) eqn:Ha.
    + by rewrite iniciar_lectura_active.
    + rewrite iniciar_lectura_inactive by done.
      by destruct (toggle_connection io self) as [[[[]|] s1] t1].
  - pose proof (toggle_connection_inv_pub io self Hpub) as Ht.
    destruct (timer_active self) eqn:Ha.
    + rewrite detener_lectura_toggle by done.
      by destruct (toggle_connection io self) as [[[[]|] s1] t1].
    + by rewrite detener_lectura_inactive.
Qed.

(** X15. What [GET /weight/] can return, whatever calls and passes came
    before: a frame that is empty or has at least 30 characters, and a
    weight of at most six characters, every character of both below
    0x80. *)
Theorem reachable_published (self : BalanzaApp) :
  reachable self →
  Forall (λ c, 0 <= ord c < 0x80) (txtTrama self) ∧
  (txtTrama self = [] ∨ 30 <= len (txtTrama self)) ∧
  Forall (λ c, 0 <= ord c < 0x80) (txtPeso self) ∧
  (length (txtPeso self) ≤ 6)%nat.
Proof.
  intros Hreach. change (inv_pub self).
  induction Hreach as [|self self' Hreach IH Hstep].
  - destruct sentinel_pub as [Hs1 Hs2].
    split; [constructor|]. split; [by left|]. done.
  - eapply step_inv_pub; [exact Hstep | by apply reachable_inv | exact IH].
Qed.

Lemma reachable_published_witness :
  Forall (λ c, 0 <= ord c < 0x80) (txtTrama weighed) ∧
  (txtTrama weighed = [] ∨ 30 <= len (txtTrama weighed)) ∧
  Forall (λ c, 0 <= ord c < 0x80) (txtPeso weighed) ∧
  (length (txtPeso weighed) ≤ 6)%nat.
Proof. exact (reachable_published weighed reachable_weighed). Defined.

(** X16. A marker at the end of the buffer. In a pass of the running
    loop that reaches the threshold with its first 0x02 or 0x82 at
    index [p], when the buffer has no character at [p + 4] the weight
    published is the empty string, not the sentinel. *)
Theorem tick_weight_empty
    (io : port_io) (self self1 : BalanzaApp) t1 (p : nat) :
  reachable self → timer_active self = true →
  read_available io self = (Ok tt, self1, t1) → 30 <= len (cPeso self1) →
  first_stx_raw (cPeso self1) p → (length (cPeso self1) ≤ p + 4)%nat →
  txtPeso (final (tick io self)) = [] ∧
  txtPeso (final (tick io self)) ≠ sentinel.
Proof.
  intros Hreach Ha Hread Hfull Hp Hend.
  destruct (reachable_inv self Hreach) as (Hact & _ & Hb).
  specialize (Hact Ha).
  assert (Hb1 := read_available_keeps_bytes _ _ _ _ Hb Hread).
  destruct (tick_full _ _ _ _ Hact Hb Hread Hfull) as (s & w & Hw & ->).
  simpl.
  pose proof (decode_frame_at _ p s (first_stx_raw_first_at _ _ Hb1 Hp)) as Hw'.
  rewrite (publishes_unique _ _ _ _ Hw Hw').
  rewrite drop_ge by (rewrite length_fmap; lia). done.
Qed.

Lemma tick_weight_empty_witness :
  txtPeso (final (tick (io_rx (replicate 29 x20 ++ [x82])) started)) = [] ∧
  txtPeso (final (tick (io_rx (replicate 29 x20 ++ [x82])) started)) ≠ sentinel.
Proof.
  apply (tick_weight_empty (io_rx (replicate 29 x20 ++ [x82])) started
           (apply_store (St_cPeso (decode_latin1 (replicate 29 x20 ++ [x82]))) started)
           [St_cPeso (decode_latin1 (replicate 29 x20 ++ [x82]))] 29
           reachable_started eq_refl eq_refl).
  - vm_compute. discriminate.
  - split.
    + exists 0x82. split; [reflexivity | by right].
    + intros i c Hi Hc.
      assert (Hc' : c = 0x20).
      { change ((replicate 29 0x20 ++ [0x82]) !! i = Some c) in Hc.
        rewrite lookup_app_l in Hc by (rewrite length_replicate; lia).
        by apply lookup_replicate in Hc as [-> _]. }
      subst c. intros [H|H]; discriminate.
  - vm_compute. lia.
Defined.

(** X17. Stop, start again, one idle pass. After [POST /detener] on an
    active object, [POST /iniciar] and a pass that finds nothing to
    read (the port closing and opening without failure), the status is
    again active with the sentinel as weight: the "0" of the stop does
    not outlive the first idle pass, while the frame is still the one
    published before the stop. *)
Theorem stop_start_idle (io1 io2 : port_io) (self : BalanzaApp) :
  timer_active self = true →
  close_raises io1 = false → open_raises io2 = false →
  home (final (tick (io_rx [])
                 (final (iniciar_lectura io2
                           (final (detener_lectura io1 self))))))
    = (sentinel, txtTrama self, true).
Proof.
  intros Ha Hclose Hopen.
  rewrite detener_lectura_toggle, toggle_connection_stop, Hclose,
    andb_false_r by done.
  change (final (Ok Lectura_detenida, ?s, ?t)) with s.
  rewrite iniciar_lectura_inactive, toggle_connection_start by done.
  simpl. rewrite Hopen.
  done.
Qed.

Lemma stop_start_idle_witness :
  home (final (tick (io_rx [])
                 (final (iniciar_lectura (io_rx [])
                           (final (detener_lectura (io_rx []) weighed))))))
    = (sentinel, txtTrama weighed, true).
Proof. exact (stop_start_idle (io_rx []) (io_rx []) weighed eq_refl eq_refl eq_refl). Defined.
